(** * WinShield: patch compliance resolution engine

    A shallow embedding of the scanner (month range, bulletin merge,
    supersedence expansion) and of the downloader (baseline constraints,
    candidate scoring and selection), with the properties of the engine
    stated and proved over it. *)

From Stdlib Require Import ZArith Ascii String List Sorted Lia.
From Stdlib Require Import Numbers.DecimalString.
From stdpp Require Import base gmap strings list fin_maps.

Local Open Scope string_scope.
Local Open Scope Z_scope.

(** ** Python string primitives

    Titles, identifiers and versions are Python [str] values.  They are
    modelled as [string]; the character classes below are Python's on the
    ASCII range, and text outside ASCII is not modelled. *)

Module PyStr.

Definition ord (a : ascii) : N := N_of_ascii a.

Definition is_upper (a : ascii) : bool := ((65 <=? ord a) && (ord a <=? 90))%N.
Definition is_lower (a : ascii) : bool := ((97 <=? ord a) && (ord a <=? 122))%N.
Definition is_digit (a : ascii) : bool := ((48 <=? ord a) && (ord a <=? 57))%N.

(** [str.isspace] / the regex class [\s]: TAB..CR, FS..US and the space. *)
Definition is_space (a : ascii) : bool :=
  (((9 <=? ord a) && (ord a <=? 13)) || ((28 <=? ord a) && (ord a <=? 32)))%N.

(** The regex class [\w]. *)
Definition is_word (a : ascii) : bool :=
  is_upper a || is_lower a || is_digit a || Ascii.eqb a "_".

Definition lower_char (a : ascii) : ascii :=
  if is_upper a then ascii_of_N (ord a + 32) else a.

(** [s.lower()] *)
Fixpoint lower (s : string) : string :=
  match s with
  | EmptyString => EmptyString
  | String a s' => String (lower_char a) (lower s')
  end.

(** Truthiness of a [str]: only the empty string is falsy. *)
Definition truthy (s : string) : bool := negb (String.eqb s "").

(** [t.startswith(p)] *)
Definition startswith (t p : string) : bool := String.prefix p t.

(** [needle in hay] *)
Fixpoint str_in (needle hay : string) : bool :=
  String.prefix needle hay ||
  match hay with
  | EmptyString => false
  | String _ hay' => str_in needle hay'
  end.

Fixpoint lstrip (s : string) : string :=
  match s with
  | EmptyString => EmptyString
  | String a s' => if is_space a then lstrip s' else s
  end.

Fixpoint rstrip (s : string) : string :=
  match s with
  | EmptyString => EmptyString
  | String a s' =>
      match rstrip s' with
      | EmptyString => if is_space a then EmptyString else String a EmptyString
      | r => String a r
      end
  end.

(** [s.strip()] *)
Definition strip (s : string) : string := rstrip (lstrip s).

(** [s.split(".", 1)[0]]: everything before the first full stop. *)
Fixpoint before_dot (s : string) : string :=
  match s with
  | EmptyString => EmptyString
  | String a s' => if Ascii.eqb a "." then EmptyString else String a (before_dot s')
  end.

(** [str(n)] for an [int]. *)
Definition str_of_int (n : Z) : string := NilZero.string_of_int (Z.to_int n).

(** [sep.join(parts)] *)
Fixpoint join (sep : string) (parts : list string) : string :=
  match parts with
  | [] => ""
  | p :: rest =>
      match rest with
      | [] => p
      | _ => p ++ sep ++ join sep rest
      end
  end.

Definition upper_char (a : ascii) : ascii :=
  if is_lower a then ascii_of_N (ord a - 32) else a.

(** [s.upper()] *)
Fixpoint upper (s : string) : string :=
  match s with
  | EmptyString => EmptyString
  | String a s' => String (upper_char a) (upper s')
  end.





(** [s.split(c, 1)[0]]: everything before the first [c]. *)
Fixpoint before_first (c : ascii) (s : string) : string :=
  match s with
  | EmptyString => EmptyString
  | String a s' => if Ascii.eqb a c then EmptyString else String a (before_first c s')
  end.

(** [s.split(c)[-1]]: everything after the last [c]. *)
Fixpoint after_last (c : ascii) (s : string) : string :=
  match s with
  | EmptyString => EmptyString
  | String a s' =>
      if str_in (String c EmptyString) s' then after_last c s'
      else if Ascii.eqb a c then s' else s
  end.

End PyStr.


(** ** The host baseline

    The JSON object produced by the host-inspection script, read with
    [dict.get]: a missing key and a [null] value are both [None]. *)

Record Baseline := {
  IsAdmin : bool;
  LcuMonthId : option string;
  MsrcLatestMonthId : option string;
  OsName : option string;
  DisplayVersion : option string;
  Architecture : option string;
  Build : option string
}.

(** [str(x or "")] *)
Definition str_or_empty (x : option string) : string :=
  match x with Some s => s | None => "" end.

(** ** Downloader: constraints, scoring, selection *)

Module Downloader.
Import PyStr.

Record CatalogCandidate := {
  update_id : string;
  title : string;
  products : string;
  classification : string;
  last_updated : string;
  version : string;
  size : string
}.

Record BaselineConstraints := {
  windows_gen : string;
  display_version : string;
  build_major : string;
  catalog_arch : string
}.

Definition build_constraints (baseline : Baseline) : BaselineConstraints :=
  let os_name := str_or_empty (OsName baseline) in
  let display_version := str_or_empty (DisplayVersion baseline) in
  let arch := str_or_empty (Architecture baseline) in
  let build := str_or_empty (Build baseline) in
  let build_major := if truthy build then before_dot build else "" in
  let os_lower := lower os_name in
  let windows_gen :=
    if str_in "windows 11" os_lower then "windows 11"
    else if str_in "windows 10" os_lower then "windows 10"
    else "" in
  let arch_lower := lower arch in
  let catalog_arch :=
    if String.eqb arch_lower "x64" || String.eqb arch_lower "amd64" then "x64"
    else if str_in "arm64" arch_lower then "arm64"
    else if String.eqb arch_lower "x86" || String.eqb arch_lower "32-bit" then "x86"
    else "x64" in
  {| windows_gen := windows_gen;
     display_version := strip display_version;
     build_major := strip build_major;
     catalog_arch := catalog_arch |}.

(** [re.search(r"\b\d{2}h[12]\b", t)]: is there a match? *)
Definition version_token_here (t : string) : bool :=
  match t with
  | String d1 (String d2 (String h (String n rest))) =>
      is_digit d1 && is_digit d2 && Ascii.eqb h "h"
      && (Ascii.eqb n "1" || Ascii.eqb n "2")
      && match rest with
         | EmptyString => true
         | String x _ => negb (is_word x)
         end
  | _ => false
  end.

(** [prev_word]: the character before the current position is a word
    character (false at the start of the string). *)
Fixpoint version_token_from (prev_word : bool) (t : string) : bool :=
  match t with
  | EmptyString => false
  | String a t' =>
      (negb prev_word && version_token_here t) || version_token_from (is_word a) t'
  end.

Definition has_version_token (t : string) : bool := version_token_from false t.

(** [re.search(r"\(\s*(\d{5})\.", t)]: group 1 of the leftmost match. *)
Definition build_here (t : string) : option string :=
  match lstrip t with
  | String d1 (String d2 (String d3 (String d4 (String d5 (String dot _))))) =>
      if is_digit d1 && is_digit d2 && is_digit d3 && is_digit d4 && is_digit d5
         && Ascii.eqb dot "."
      then Some (String d1 (String d2 (String d3 (String d4 (String d5 EmptyString)))))
      else None
  | _ => None
  end.

Fixpoint search_build (t : string) : option string :=
  match t with
  | EmptyString => None
  | String a t' =>
      match (if Ascii.eqb a "(" then build_here t' else None) with
      | Some g => Some g
      | None => search_build t'
      end
  end.

(** Control flow of a function body with early [return]s: a block either
    returns from the function or falls through with the updated locals. *)
Inductive flow (A : Type) : Type :=
| Return (v : Z)
| Next (locals : A).
Arguments Return {A} v.
Arguments Next {A} locals.

Notation "'block' x <- e ;; k" :=
  (match e with Return v => v | Next x => k end)
  (at level 10, x name, e at level 99, k at level 200, only parsing).

Definition score_candidate
    (candidate : CatalogCandidate) (kb_id : string) (c : BaselineConstraints) : Z :=
  let t := lower (title candidate) in
  let score := 0 in
  (* KB token must be present *)
  block score <- (if negb (str_in (lower kb_id) t) then Return (-10000)
                  else Next (score + 50)) ;;
  (* Windows generation match *)
  block score <- (if truthy (windows_gen c) then
                    let score := if str_in (windows_gen c) t then score + 40 else score in
                    if String.eqb (windows_gen c) "windows 10" && str_in "windows 11" t
                    then Return (-10000)
                    else if String.eqb (windows_gen c) "windows 11" && str_in "windows 10" t
                    then Return (-10000)
                    else Next score
                  else Next score) ;;
  (* Client baseline should not pull Server packages *)
  block score <- (if startswith (windows_gen c) "windows " && str_in "server" t
                  then Return (-10000) else Next score) ;;
  (* Architecture is treated as required *)
  block score <- (if String.eqb (catalog_arch c) "x64" then
                    if str_in "arm64-based" t || str_in "x86-based" t || str_in "32-bit" t
                    then Return (-10000)
                    else Next (if str_in "x64-based" t then score + 25 else score)
                  else if String.eqb (catalog_arch c) "arm64" then
                    if str_in "x64-based" t || str_in "x86-based" t || str_in "32-bit" t
                    then Return (-10000)
                    else Next (if str_in "arm64-based" t then score + 25 else score)
                  else if String.eqb (catalog_arch c) "x86" then
                    if str_in "x64-based" t || str_in "arm64-based" t
                    then Return (-10000)
                    else Next (if str_in "x86-based" t || str_in "32-bit" t
                               then score + 25 else score)
                  else Next score) ;;
  (* DisplayVersion is optional *)
  let dv := strip (lower (display_version c)) in
  let score :=
    if truthy dv then
      let score := if str_in dv t then score + 25 else score in
      (* Penalise if the title explicitly contains another token *)
      if has_version_token t && negb (str_in dv t) then score - 15 else score
    else score in
  (* Build major is optional *)
  let score :=
    if truthy (build_major c) then
      match search_build t with
      | Some g => score + (if String.eqb g (build_major c) then 10 else -5)
      | None => score
      end
    else score in
  score.

(** The stable sort of [scored.sort(key=lambda x: x[0], reverse=True)]:
    larger scores first, equal scores in their original order. *)
Fixpoint insert_desc {A} (x : Z * A) (l : list (Z * A)) : list (Z * A) :=
  match l with
  | [] => [x]
  | y :: l' => if (fst x <? fst y)%Z then y :: insert_desc x l' else x :: l
  end.

Fixpoint sort_desc {A} (l : list (Z * A)) : list (Z * A) :=
  match l with
  | [] => []
  | x :: l' => insert_desc x (sort_desc l')
  end.

Definition NO_MATCH : string := "No candidate matched baseline constraints.".

Definition ambiguous (best_score : Z) : string :=
  "Ambiguous match (best score " ++ str_of_int best_score ++ " below threshold).".

Definition choose_best_candidate
    (candidates : list CatalogCandidate) (kb_id : string)
    (constraints : BaselineConstraints) : option CatalogCandidate * option string :=
  let scored :=
    foldl (fun scored cand =>
             let s := score_candidate cand kb_id constraints in
             if (0 <=? s)%Z then (scored ++ [(s, cand)])%list else scored)
          [] candidates in
  match sort_desc scored with
  | [] => (None, Some NO_MATCH)
  | (best_score, best) :: _ =>
      (* Guardrail to avoid mismatch *)
      if (best_score <? 90)%Z then (None, Some (ambiguous best_score))
      else (Some best, None)
  end.

(** *** Architecture families

    The three catalog architectures and the title markers that name
    them, as the scorer tests them. *)

Inductive family := Intel64 | Arm64 | X86.

Definition family_of_arch (catalog_arch : string) : option family :=
  if String.eqb catalog_arch "x64" then Some Intel64
  else if String.eqb catalog_arch "arm64" then Some Arm64
  else if String.eqb catalog_arch "x86" then Some X86
  else None.

(** The lower-cased title [t] names a marker of family [f]. *)
Definition names_marker (f : family) (t : string) : bool :=
  match f with
  | Intel64 => str_in "x64-based" t
  | Arm64 => str_in "arm64-based" t
  | X86 => str_in "x86-based" t || str_in "32-bit" t
  end.

(** Two lower-cased titles answer every test of the scorer alike, the
    markers of family [f] apart. *)
Definition same_outside_marker (f : family) (kb_id : string) (c : BaselineConstraints)
    (t t' : string) : Prop :=
  str_in (lower kb_id) t = str_in (lower kb_id) t'
  /\ str_in (windows_gen c) t = str_in (windows_gen c) t'
  /\ str_in "windows 10" t = str_in "windows 10" t'
  /\ str_in "windows 11" t = str_in "windows 11" t'
  /\ str_in "server" t = str_in "server" t'
  /\ (forall g, g <> f -> names_marker g t = names_marker g t')
  /\ str_in (strip (lower (display_version c))) t
     = str_in (strip (lower (display_version c))) t'
  /\ has_version_token t = has_version_token t'
  /\ search_build t = search_build t'.

End Downloader.


(** ** Scanner: month range, bulletin merge, supersedence expansion *)

Module Scanner.
Import PyStr.

(** *** Exceptions *)

Inductive exc_class := RuntimeError_class | ValueError_class.

(** A raised exception.  [ValueError] is what [datetime.strptime] and the
    [datetime] constructor raise; its message is the library's own and is
    not modelled. *)
Inductive exception :=
| RuntimeError (msg : string)
| ValueError.

Definition class_of (e : exception) : exc_class :=
  match e with
  | RuntimeError _ => RuntimeError_class
  | ValueError => ValueError_class
  end.

Inductive result (A : Type) :=
| Raised (e : exception)
| Returned (v : A).
Arguments Raised {A} e.
Arguments Returned {A} v.

(** *** Month identifiers

    Every [datetime] of the month-range builder is at day 1 of its month:
    the year, the month, and the time of day in microseconds (zero for a
    parsed month identifier, the wall-clock time for
    [datetime.now(UTC).replace(day=1)]). *)

Record datetime := { year : Z; month : Z; time_of_day : Z }.

Definition dt_gt (a b : datetime) : bool :=
  (year b <? year a)
  || ((year a =? year b)
      && ((month b <? month a)
          || ((month a =? month b) && (time_of_day b <? time_of_day a)))).

Definition dt_eq (a b : datetime) : bool :=
  (year a =? year b) && (month a =? month b) && (time_of_day a =? time_of_day b).

(** [datetime(year, month, 1, tzinfo=UTC)]: the year must be in 1..9999. *)
Definition mk_datetime (y m : Z) : option datetime :=
  if (1 <=? y) && (y <=? 9999) && (1 <=? m) && (m <=? 12)
  then Some {| year := y; month := m; time_of_day := 0 |}
  else None.

Definition month_abbr : list string :=
  ["Jan"; "Feb"; "Mar"; "Apr"; "May"; "Jun";
   "Jul"; "Aug"; "Sep"; "Oct"; "Nov"; "Dec"].

Definition digit_val (a : ascii) : Z := Z.of_N (ord a) - 48.

(** Position (from 1) of a month abbreviation (the English ones of the C
    locale), compared without case. *)
Fixpoint month_index (names : list string) (i : Z) (s : string) : option Z :=
  match names with
  | [] => None
  | n :: names' =>
      if String.eqb (lower n) (lower s) then Some i else month_index names' (i + 1) s
  end.

(** [datetime.strptime(s, "%Y-%b")]: four digits, a hyphen, a month
    abbreviation in any case, nothing else. *)
Definition strptime (s : string) : option datetime :=
  match s with
  | String d1 (String d2 (String d3 (String d4 (String h mon)))) =>
      if is_digit d1 && is_digit d2 && is_digit d3 && is_digit d4 && Ascii.eqb h "-"
      then
        match month_index month_abbr 1 mon with
        | Some m =>
            mk_datetime
              (1000 * digit_val d1 + 100 * digit_val d2 + 10 * digit_val d3 + digit_val d4)
              m
        | None => None
        end
      else None
  | _ => None
  end.

Definition digit_char (d : Z) : ascii := ascii_of_N (Z.to_N (48 + d)).

(** [current.strftime("%Y-%b")], the year on four digits. *)
Definition strftime (d : datetime) : string :=
  String (digit_char (year d / 1000 mod 10))
    (String (digit_char (year d / 100 mod 10))
       (String (digit_char (year d / 10 mod 10))
          (String (digit_char (year d mod 10))
             (String "-" (nth (Z.to_nat (month d - 1)) month_abbr ""))))).

(** The [while True] loop; [None] when [fuel] iterations did not reach a
    [break]. *)
Fixpoint month_loop (fuel : nat) (end_ : datetime) (max_months : Z)
    (year month : Z) (month_ids : list string) : option (result (list string)) :=
  match fuel with
  | O => None
  | S fuel' =>
      match mk_datetime year month with
      | None => Some (Raised ValueError)
      | Some current =>
          if dt_gt current end_ then Some (Returned month_ids)
          else
            (* Add MonthId in MSRC format *)
            let month_ids := (month_ids ++ [strftime current])%list in
            (* Stop at end month or safety cap *)
            if dt_eq current end_ || (max_months <=? Z.of_nat (length month_ids))
            then Some (Returned month_ids)
            else
              (* Advance to next calendar month *)
              let month := month + 1 in
              if month =? 13
              then month_loop fuel' end_ max_months (year + 1) 1 month_ids
              else month_loop fuel' end_ max_months year month month_ids
      end
  end.

Definition NOT_ADMIN : string :=
  "Baseline collected without administrative privileges. LCU detection requires elevation.".
Definition NO_LCU : string := "Baseline did not provide LcuMonthId.".

Definition opt_truthy (x : option string) : bool :=
  match x with Some s => truthy s | None => false end.

(** [now_day1] is the value of [datetime.now(UTC).replace(day=1)]. *)
Definition build_month_ids_from_lcu (fuel : nat) (now_day1 : datetime)
    (baseline : Baseline) (max_months : Z) : option (result (list string)) :=
  (* Require admin baseline *)
  if negb (IsAdmin baseline) then Some (Raised (RuntimeError NOT_ADMIN)) else
  (* Starting month comes from installed LCU *)
  if negb (opt_truthy (LcuMonthId baseline)) then Some (Raised (RuntimeError NO_LCU)) else
  (* Ending month is latest MSRC month or current month as fallback *)
  match (if opt_truthy (MsrcLatestMonthId baseline)
         then strptime (str_or_empty (MsrcLatestMonthId baseline))
         else Some now_day1) with
  | None => Some (Raised ValueError)
  | Some end_ =>
      (* Convert LCU month to datetime *)
      match strptime (str_or_empty (LcuMonthId baseline)) with
      | None => Some (Raised ValueError)
      | Some start =>
          (* Ensure that start is not after end *)
          let start := if dt_gt start end_ then end_ else start in
          month_loop fuel end_ max_months (year start) (month start) []
      end
  end.

(** The month range in the words of the specification: [count]
    consecutive calendar months, in chronological order, from the month
    [month] of [year] on. *)
Definition ordinal (d : datetime) : Z := 12 * year d + month d.

(** What [strptime] and [datetime(year, month, 1)] produce. *)
Definition parsed (d : datetime) : Prop :=
  1 <= year d <= 9999 /\ 1 <= month d <= 12 /\ time_of_day d = 0.

Definition next_month (ym : Z * Z) : Z * Z :=
  if ym.2 =? 12 then (ym.1 + 1, 1) else (ym.1, ym.2 + 1).

Fixpoint months_from (year month : Z) (count : nat) : list string :=
  match count with
  | O => []
  | S count' =>
      strftime {| year := year; month := month; time_of_day := 0 |}
      :: months_from (next_month (year, month)).1 (next_month (year, month)).2 count'
  end.

(** *** KB entries

    A KB entry is a JSON object with the keys "KB", "Months", "Cves",
    "Supersedes" and, after classification, "UpdateType".  The code reads
    every key through [entry.get(key) or []] or a truthiness test, so a
    missing key and a [null] are represented by the empty list or string they
    are read as. *)

Record KbEntry := {
  KB : string;
  Months : list string;
  Cves : list string;
  Supersedes : list string;
  UpdateType : string
}.

(** [x in xs] on a list of strings *)
Definition str_mem (x : string) (xs : list string) : bool :=
  existsb (String.eqb x) xs.

(** One pass of [for x in incoming: if x and x not in target: target.append(x)] *)
Definition append_new (target : list string) (x : string) : list string :=
  if truthy x && negb (str_mem x target) then (target ++ [x])%list else target.

(** The body of the [for entry in incoming] loop. *)
Definition merge_entry (existing : gmap string KbEntry) (entry : KbEntry)
    : gmap string KbEntry :=
  let kb_id := KB entry in
  (* Skip entries without a valid KB ID *)
  if negb (truthy kb_id) then existing else
  (* Initialise entry in existing map if not present *)
  let rec :=
    match existing !! kb_id with
    | Some r => r
    | None => {| KB := kb_id; Months := []; Cves := []; Supersedes := [];
                 UpdateType := "" |}
    end in
  <[kb_id := {| KB := KB rec;
                Months := foldl append_new (Months rec) (Months entry);
                Cves := foldl append_new (Cves rec) (Cves entry);
                Supersedes := foldl append_new (Supersedes rec) (Supersedes entry);
                UpdateType := UpdateType rec |}]> existing.

(** [merge_kb_entries] mutates [existing] in place; the model returns the
    index after the call. *)
Definition merge_kb_entries (existing : gmap string KbEntry) (incoming : list KbEntry)
    : gmap string KbEntry :=
  foldl merge_entry existing incoming.

(** [sorted(xs)] on strings: ascending by code point. *)
Fixpoint insert_sorted (x : string) (l : list string) : list string :=
  match l with
  | [] => [x]
  | y :: l' => if String.leb x y then x :: l else y :: insert_sorted x l'
  end.

Definition sorted (l : list string) : list string := foldr insert_sorted [] l.

(** The order of [sorted]: [a <= b] on Python strings. *)
Definition str_le (a b : string) : Prop := String.leb a b = true.

(** [sorted(set(xs))] *)
Definition sorted_set (xs : list string) : list string :=
  sorted (elements (list_to_set xs : gset string)).

(** The normalisation and classification pass of [main] on one entry. *)
Definition normalise_entry (e : KbEntry) : KbEntry :=
  let supersedes := sorted_set (Supersedes e) in
  {| KB := KB e;
     Months := sorted_set (Months e);
     Cves := sorted_set (Cves e);
     Supersedes := supersedes;
     UpdateType := match supersedes with [] => "Standalone" | _ => "Superseding" end |}.

Definition normalise_index (index : gmap string KbEntry) : gmap string KbEntry :=
  normalise_entry <$> index.

(** Merge bookkeeping: the index record [r] already holds everything
    [e] brings, and the index has absorbed [e]. *)
Definition covers (r e : KbEntry) : Prop :=
  (forall x, x ∈ Months e -> truthy x = true -> x ∈ Months r)
  /\ (forall x, x ∈ Cves e -> truthy x = true -> x ∈ Cves r)
  /\ (forall x, x ∈ Supersedes e -> truthy x = true -> x ∈ Supersedes r).

Definition absorbed (index : gmap string KbEntry) (e : KbEntry) : Prop :=
  truthy (KB e) = false \/ exists r, index !! KB e = Some r /\ covers r e.

(** *** Supersedence expansion *)

(** [m.get(k, set())], also the set that [m.setdefault(k, set())] yields. *)
Definition get_set (m : gmap string (gset string)) (k : string) : gset string :=
  match m !! k with Some s => s | None => ∅ end.

(** [supersedes_map.setdefault(kb_id, set()).add(old)] *)
Definition add_edge (kb_id : string) (m : gmap string (gset string)) (old : string)
    : gmap string (gset string) :=
  <[kb_id := get_set m kb_id ∪ {[old]}]> m.

Definition build_supersedes_map (kb_entries : list KbEntry) : gmap string (gset string) :=
  foldl (fun m entry =>
           if negb (truthy (KB entry)) then m
           else foldl (add_edge (KB entry)) m (Supersedes entry))
        ∅ kb_entries.

(** The supersedes relation of the bulletin records: [newer] names [old]
    in its Supersedes list. *)
Definition supersedes (kb_entries : list KbEntry) (newer old : string) : Prop :=
  exists entry, entry ∈ kb_entries /\ KB entry = newer /\ truthy newer = true
                /\ old ∈ Supersedes entry.

(** Every identifier that some record supersedes. *)
Definition universe (supersedes_map : gmap string (gset string)) : gset string :=
  ⋃ (map_to_list supersedes_map).*2.

(** Iterations that suffice for the [while stack] loop of any one root. *)
Definition fuel_bound (kb_entries : list KbEntry) : nat :=
  2 * size (universe (build_supersedes_map kb_entries)) + 1.

(** The locals of one root's traversal.  [stack] is the Python list with its
    end (where [append] and [pop] work) at the head.  [pushed] is a ghost
    history of every value put on the stack in this traversal; the code
    never reads it. *)
Record dfs := {
  stack : list string;
  seen : gset string;
  logical_present : gset string;
  superseded_by : gmap string (gset string);
  pushed : list string
}.

(** The body of [for old in supersedes_map.get(current, set())]. *)
Definition visit (root_installed : string) (st : dfs) (old : string) : dfs :=
  let lp := logical_present st ∪ {[old]} in
  let sb := <[old := get_set (superseded_by st) old ∪ {[root_installed]}]>
              (superseded_by st) in
  if decide (old ∈ seen st)
  then {| stack := stack st; seen := seen st; logical_present := lp;
          superseded_by := sb; pushed := pushed st |}
  else {| stack := old :: stack st; seen := seen st ∪ {[old]}; logical_present := lp;
          superseded_by := sb; pushed := (pushed st ++ [old])%list |}.

(** What the [while stack] loop still has to do: identifiers not yet seen
    count twice, stacked ones once. *)
Definition work_left (supersedes_map : gmap string (gset string)) (st : dfs) : nat :=
  2 * size (universe supersedes_map ∖ seen st) + length (stack st).

(** [while stack]; [None] when [fuel] iterations did not empty the stack. *)
Fixpoint expand (fuel : nat) (supersedes_map : gmap string (gset string))
    (root_installed : string) (st : dfs) : option dfs :=
  match stack st with
  | [] => Some st
  | current :: rest =>
      match fuel with
      | O => None
      | S fuel' =>
          let st := {| stack := rest; seen := seen st;
                       logical_present := logical_present st;
                       superseded_by := superseded_by st; pushed := pushed st |} in
          expand fuel' supersedes_map root_installed
            (foldl (visit root_installed) st
               (elements (get_set supersedes_map current)))
      end
  end.

(** The body of [for root_installed in installed_kbs]. *)
Definition traverse_root (fuel : nat) (supersedes_map : gmap string (gset string))
    (acc : gset string * gmap string (gset string)) (root_installed : string)
    : option dfs :=
  expand fuel supersedes_map root_installed
    {| stack := [root_installed]; seen := {[root_installed]};
       logical_present := acc.1; superseded_by := acc.2;
       pushed := [root_installed] |}.

Definition expand_roots (fuel : nat) (supersedes_map : gmap string (gset string))
    (roots : list string) (acc : gset string * gmap string (gset string))
    : option (gset string * gmap string (gset string)) :=
  foldl (fun acc root_installed =>
           match acc with
           | None => None
           | Some acc =>
               match traverse_root fuel supersedes_map acc root_installed with
               | None => None
               | Some st => Some (logical_present st, superseded_by st)
               end
           end)
        (Some acc) roots.

(** The sets [installed_kbs] and [supersedes_map[current]] are iterated in
    the order of [elements]; Python leaves that order unspecified. *)
Definition compute_supersedence (fuel : nat) (kb_entries : list KbEntry)
    (installed_kbs : gset string)
    : option (gset string * gmap string (list string)) :=
  let supersedes_map := build_supersedes_map kb_entries in
  match expand_roots fuel supersedes_map (elements installed_kbs) (installed_kbs, ∅) with
  | None => None
  | Some (logical_present, superseded_by) =>
      (* Convert superseded sets to sorted lists for output *)
      Some (logical_present, (fun v : gset string => sorted (elements v)) <$> superseded_by)
  end.

(** The three list fields of a record of the index, empty when the key is absent. *)
Definition field_at (f : KbEntry -> list string) (index : gmap string KbEntry)
    (k : string) : list string :=
  match index !! k with Some r => f r | None => [] end.

Definition list_field (f : KbEntry -> list string) : Prop :=
  f = Months \/ f = Cves \/ f = Supersedes.

(** An index as merges build it from the empty one: every record sits
    under its own, non-empty KB, and its lists hold no value twice and no
    empty value. *)
Definition wf_index (index : gmap string KbEntry) : Prop :=
  forall k r, index !! k = Some r ->
    KB r = k /\ truthy k = true
    /\ forall f, list_field f -> NoDup (f r) /\ forall x, x ∈ f r -> truthy x = true.

(** *** Chunks, summary and table of [main] *)

(** [range(0, stop, step)] for a positive [step]. *)
Definition range_from_0 (stop step : Z) : list Z :=
  (fun k => Z.of_nat k * step) <$> seq 0 (Z.to_nat ((stop + step - 1) / step)).

(** [range] raises [ValueError] for a zero step and is empty for a negative
    one (the start 0 is not above the length). *)
Definition chunk_list {A : Type} (items : list A) (chunk_size : Z) : result (list (list A)) :=
  if chunk_size =? 0 then Raised ValueError
  else if chunk_size <? 0 then Returned []
  else Returned
         ((fun i => take (Z.to_nat chunk_size) (drop (Z.to_nat i) items))
            <$> range_from_0 (Z.of_nat (length items)) chunk_size).

(** [{e["KB"] for e in kb_entries if e.get("KB")}] *)
Definition expected_of (kb_entries : list KbEntry) : gset string :=
  list_to_set (List.filter truthy (KB <$> kb_entries)).

(** [{e["KB"]: e for e in kb_entries if e.get("KB")}]: of two entries with
    one KB the later stays. *)
Definition kb_index_of (kb_entries : list KbEntry) : gmap string KbEntry :=
  foldl (fun m e => if truthy (KB e) then <[KB e := e]> m else m) ∅ kb_entries.

Record ScanSummary := {
  expected_kbs : gset string;
  logical_present_kbs : gset string;
  superseded_by_roots : gmap string (list string);
  present_sorted : list string;
  missing_sorted : list string;
  missing_superseding : Z;
  missing_standalone : Z
}.

(** The pure middle of [main]: normalisation and classification of the
    merged entries, supersedence expansion and the summary counts.
    [kb_entries] is [list(merged_kb_map.values())]. *)
Definition resolve_compliance (fuel : nat) (kb_entries : list KbEntry)
    (installed_kbs : gset string) : option ScanSummary :=
  let kb_entries := normalise_entry <$> kb_entries in
  let expected_kbs := expected_of kb_entries in
  match compute_supersedence fuel kb_entries installed_kbs with
  | None => None
  | Some (logical_present_kbs, superseded_by) =>
      let present_sorted := sorted (elements (expected_kbs ∩ logical_present_kbs)) in
      let missing_sorted := sorted (elements (expected_kbs ∖ logical_present_kbs)) in
      let kb_index := kb_index_of kb_entries in
      let missing_superseding :=
        Z.of_nat (length (List.filter
                            (fun kb => match kb_index !! kb with
                                       | Some e => String.eqb (UpdateType e) "Superseding"
                                       | None => false
                                       end) missing_sorted)) in
      let missing_standalone := Z.of_nat (length missing_sorted) - missing_superseding in
      Some {| expected_kbs := expected_kbs;
              logical_present_kbs := logical_present_kbs;
              superseded_by_roots := superseded_by;
              present_sorted := present_sorted;
              missing_sorted := missing_sorted;
              missing_superseding := missing_superseding;
              missing_standalone := missing_standalone |}
  end.

(** The status column of [print_kb_table]. *)
Definition kb_status (installed_kbs logical_present_kbs : gset string)
    (superseded_by : gmap string (list string)) (kb_id : string) : string :=
  (* Physical install always wins. *)
  if decide (kb_id ∈ installed_kbs) then "Installed"
  else if decide (kb_id ∈ logical_present_kbs) then
    match superseded_by !! kb_id with
    | Some (r :: by_) => "Superseded (" ++ join ", " (r :: by_) ++ ")"
    | _ => "Superseded"
    end
  else "Missing".

(** The invariant of the [while stack] loop of root [root], entered with
    the accumulators [lp0] and [sb0]: the stack holds seen identifiers, once
    each; what is seen is reachable from the root; an identifier that left
    the stack has passed everything it supersedes to the accumulators; and
    the accumulators grew by identifiers reachable from the root only. *)
Record dfs_inv (kb_entries : list KbEntry) (root : string) (lp0 : gset string)
    (sb0 : gmap string (gset string)) (st : dfs) : Prop := {
  inv_root : root ∈ seen st;
  inv_stack_seen : forall x, x ∈ stack st -> x ∈ seen st;
  inv_stack_nodup : NoDup (stack st);
  inv_pushed_seen : forall x, x ∈ pushed st -> x ∈ seen st;
  inv_pushed_nodup : NoDup (pushed st);
  inv_reach : forall x, x ∈ seen st -> rtc (supersedes kb_entries) root x;
  inv_done : forall x y, x ∈ seen st -> x ∉ stack st -> supersedes kb_entries x y ->
             y ∈ seen st /\ y ∈ logical_present st
             /\ root ∈ get_set (superseded_by st) y;
  inv_lp_sound : forall y, y ∈ logical_present st ->
                 y ∈ lp0 \/ tc (supersedes kb_entries) root y;
  inv_sb_sound : forall y q, q ∈ get_set (superseded_by st) y ->
                 q ∈ get_set sb0 y \/ (q = root /\ tc (supersedes kb_entries) root y);
  inv_dom_sound : forall y, is_Some (superseded_by st !! y) ->
                  is_Some (sb0 !! y) \/ tc (supersedes kb_entries) root y;
  inv_lp_mono : forall y, y ∈ lp0 -> y ∈ logical_present st;
  inv_sb_mono : forall y q, q ∈ get_set sb0 y -> q ∈ get_set (superseded_by st) y;
  inv_dom_mono : forall y, is_Some (sb0 !! y) -> is_Some (superseded_by st !! y)
}.

End Scanner.

(** ** Downloader: the scan result, the operator's selection, the download *)

Module DownloaderMain.
Import PyStr Downloader Scanner.

(** The persisted scan result, as far as the downloader reads it; a
    missing list is read as the empty one. *)
Record ScanResult := {
  MissingKbs : list string;
  KbEntries : list KbEntry
}.

Record MissingKbItem := {
  kb_id : string;
  update_type : string
}.

(** [{str(entry.get("KB")).upper(): entry for entry in kb_entries if entry.get("KB")}] *)
Definition upper_index (kb_entries : list KbEntry) : gmap string KbEntry :=
  foldl (fun m entry => if truthy (KB entry) then <[upper (KB entry) := entry]> m else m)
        ∅ kb_entries.

Definition build_missing_list (scan_result : ScanResult) : list MissingKbItem :=
  let missing_kbs := MissingKbs scan_result in
  let kb_entries := KbEntries scan_result in
  let kb_index := upper_index kb_entries in
  foldl (fun out kb =>
           let kb_str := upper (strip kb) in
           if negb (truthy kb_str) then out
           else
             let update_type :=
               match kb_index !! kb_str with
               | Some entry =>
                   if truthy (UpdateType entry) then UpdateType entry else "Unknown"
               | None => "Unknown"
               end in
             (out ++ [{| kb_id := kb_str; update_type := update_type |}])%list)
        [] missing_kbs.




(** The loop of [extract_download_urls] over the matches of its two
    [re.findall] calls, [href_matches] and [script_matches]. *)
Definition extract_download_urls (href_matches script_matches : list string) : list string :=
  let urls := (href_matches ++ script_matches)%list in
  fst (foldl (fun (acc : list string * gset string) u =>
                let u := strip u in
                if truthy u && negb (bool_decide (u ∈ acc.2))
                then ((acc.1 ++ [u])%list, acc.2 ∪ {[u]})
                else acc)
             ([], ∅) urls).

(** [url.split("/")[-1].split("?", 1)[0]], the file name of [download_file]. *)
Definition download_filename (url : string) : string :=
  before_first "?" (after_last "/" url).

End DownloaderMain.

(** ** Installer *)

Module Installer.
Import PyStr.





End Installer.

(** ** Scenarios: concrete hosts, candidates and bulletins *)

Module Scenarios.
Import Downloader Scanner.

Definition ia64_host : Baseline :=
  {| IsAdmin := true; LcuMonthId := Some "2024-Jan"; MsrcLatestMonthId := None;
     OsName := Some "Microsoft Windows 10 Pro"; DisplayVersion := Some "22H2";
     Architecture := Some "IA64"; Build := Some "19045.3570" |}.

Definition host (is_admin : bool) (lcu msrc : option string) : Baseline :=
  {| IsAdmin := is_admin; LcuMonthId := lcu; MsrcLatestMonthId := msrc;
     OsName := Some "Microsoft Windows 11 Pro"; DisplayVersion := Some "23H2";
     Architecture := Some "64-bit"; Build := Some "22631.2428" |}.

Definition clock : datetime := {| year := 2024; month := 6; time_of_day := 43200000000 |}.

Definition title_85 : string := "Update for Windows 11 (KB5031354) (22000.1)".
Definition title_90 : string := "Update for Windows 11 (KB5031354)".
Definition title_90' : string := "Security Update for Windows 11 (KB5031354)".

Definition bulletin (kb : string) (supersedes : list string) : KbEntry :=
  {| KB := kb; Months := ["2023-Oct"]; Cves := []; Supersedes := supersedes;
     UpdateType := "" |}.

Definition chain : list KbEntry :=
  [bulletin "KB5031354" ["KB5029351"]; bulletin "KB5029351" ["KB5026372"]].

Definition cyclic : list KbEntry :=
  [bulletin "KB1" ["KB2"]; bulletin "KB2" ["KB3"; "KB1"]; bulletin "KB3" ["KB1"]].

Definition candidate (title : string) : CatalogCandidate :=
  {| update_id := "00000000-0000-0000-0000-000000000000"; title := title;
     products := "Windows 11"; classification := "Security Updates";
     last_updated := "10/10/2023"; version := "n/a"; size := "600.0 MB" |}.

Definition win11_x64 : BaselineConstraints :=
  {| windows_gen := "windows 11"; display_version := "23H2";
     build_major := "22631"; catalog_arch := "x64" |}.

Definition title_x64 : string :=
  "2023-10 Cumulative Update for Windows 11 Version 23H2 for x64-based Systems (KB5031354)".
Definition title_arm64 : string :=
  "2023-10 Cumulative Update for Windows 11 Version 23H2 for ARM64-based Systems (KB5031354)".
Definition title_no_arch : string :=
  "2023-10 Cumulative Update for Windows 11 Version 23H2 (KB5031354)".

End Scenarios.

(** * Properties *)

Section ScoreRange.
Import PyStr Downloader.

(** C9. [score_candidate] returns the hard-reject sentinel -10000 or a
    score between 30 and 150: after the +50 of the identifier token the
    penalties (-15 version, -5 build) cannot bring it below 30.  Hence a
    score is negative exactly when it is the sentinel. *)
Theorem score_candidate_range (candidate : CatalogCandidate) (kb_id : string)
    (c : BaselineConstraints) :
  (score_candidate candidate kb_id c = -10000
   \/ 30 <= score_candidate candidate kb_id c <= 150)
  /\ (score_candidate candidate kb_id c < 0
      <-> score_candidate candidate kb_id c = -10000).
Proof.
  unfold score_candidate.
  repeat match goal with
         | |- context [if ?b then _ else _] => destruct b
         | |- context [match ?o with Some _ => _ | None => _ end] => destruct o
         end; lia.
Qed.

End ScoreRange.

Section Constraints.
Import PyStr Downloader.

(** C10. A baseline whose Architecture field, lower-cased, is none of
    "x64", "amd64", "x86", "32-bit" and does not contain "arm64" gets the
    catalog architecture "x64"; a missing or empty field is such a case. *)
Theorem build_constraints_arch_fallback (baseline : Baseline) :
  let arch_lower := lower (str_or_empty (Architecture baseline)) in
  (arch_lower <> "x64" -> arch_lower <> "amd64" ->
   str_in "arm64" arch_lower = false ->
   arch_lower <> "x86" -> arch_lower <> "32-bit" ->
   catalog_arch (build_constraints baseline) = "x64")
  /\ (Architecture baseline = None \/ Architecture baseline = Some "" ->
      catalog_arch (build_constraints baseline) = "x64").
Proof.
  intros arch_lower. subst arch_lower.
  assert (Hmain :
    lower (str_or_empty (Architecture baseline)) <> "x64" ->
    lower (str_or_empty (Architecture baseline)) <> "amd64" ->
    str_in "arm64" (lower (str_or_empty (Architecture baseline))) = false ->
    lower (str_or_empty (Architecture baseline)) <> "x86" ->
    lower (str_or_empty (Architecture baseline)) <> "32-bit" ->
    catalog_arch (build_constraints baseline) = "x64").
  { intros H1 H2 H3 H4 H5. unfold build_constraints. cbn [catalog_arch].
    apply String.eqb_neq in H1, H2, H4, H5.
    rewrite H1, H2, H3, H4, H5. reflexivity. }
  split; [exact Hmain|].
  intros [E|E]; apply Hmain; rewrite E; cbn; congruence.
Qed.

Lemma build_constraints_arch_fallback_witness :
  lower (str_or_empty (Architecture Scenarios.ia64_host)) = "ia64"
  /\ str_in "arm64" "ia64" = false
  /\ catalog_arch (build_constraints Scenarios.ia64_host) = "x64".
Proof.
  split; [reflexivity|]. split; [reflexivity|].
  apply (proj1 (build_constraints_arch_fallback Scenarios.ia64_host));
    solve [ vm_compute; congruence | reflexivity ].
Defined.

End Constraints.

Section Architecture.
Import PyStr Downloader.

Ltac branches :=
  repeat match goal with
         | |- context [if ?b then _ else _] => destruct b
         | |- context [match ?o with Some _ => _ | None => _ end] => destruct o
         end.

Lemma family_of_arch_inv (a : string) (f : family) :
  family_of_arch a = Some f ->
  a = match f with Intel64 => "x64" | Arm64 => "arm64" | X86 => "x86" end.
Proof.
  unfold family_of_arch.
  destruct (String.eqb_spec a "x64"); [intros [= <-]; assumption|].
  destruct (String.eqb_spec a "arm64"); [intros [= <-]; assumption|].
  destruct (String.eqb_spec a "x86"); [intros [= <-]; assumption|].
  discriminate.
Qed.

(** Every baseline is normalised to one of the three families. *)
Lemma build_constraints_family (baseline : Baseline) :
  exists f, family_of_arch (catalog_arch (build_constraints baseline)) = Some f.
Proof.
  unfold build_constraints. cbn [catalog_arch].
  repeat match goal with |- context [if ?b then _ else _] => destruct b end;
    eexists; reflexivity.
Qed.

(** C3. With the lower-cased title containing the identifier token: a
    marker of an architecture family other than the baseline's makes
    [score_candidate] return -10000 whatever else the title holds; and of
    two titles that answer every other test alike and are not rejected,
    the one that names the baseline's own marker scores exactly 25 more
    than the one that lacks it. *)
Theorem score_candidate_architecture (kb_id : string) (c : BaselineConstraints)
    (f : family) (Hf : family_of_arch (catalog_arch c) = Some f) :
  (forall candidate g,
      str_in (lower kb_id) (lower (title candidate)) = true ->
      g <> f -> names_marker g (lower (title candidate)) = true ->
      score_candidate candidate kb_id c = -10000)
  /\ (forall candidate candidate',
        str_in (lower kb_id) (lower (title candidate)) = true ->
        score_candidate candidate kb_id c <> -10000 ->
        names_marker f (lower (title candidate)) = false ->
        names_marker f (lower (title candidate')) = true ->
        same_outside_marker f kb_id c (lower (title candidate)) (lower (title candidate')) ->
        score_candidate candidate' kb_id c = score_candidate candidate kb_id c + 25).
Proof.
  apply family_of_arch_inv in Hf. split.
  - intros candidate g Hkb Hg Hm. unfold score_candidate.
    rewrite Hkb, Hf. cbn [negb].
    destruct f, g; try congruence; cbn [names_marker] in Hm;
      cbn [String.eqb Ascii.eqb Bool.eqb];
      try (apply orb_prop in Hm; destruct Hm as [Hm|Hm]);
      rewrite Hm, ?orb_true_r; cbn [orb]; branches; reflexivity.
  - intros candidate candidate' Hkb Hrej Hno Hyes
      (E1 & E2 & E3 & E4 & E5 & E6 & E7 & E8 & E9).
    revert Hrej. unfold score_candidate.
    rewrite <- E1, <- E2, <- E3, <- E4, <- E5, <- E7, <- E8, <- E9, Hkb, Hf.
    cbn [negb].
    destruct f; cbn [names_marker] in Hno, Hyes;
      cbn [String.eqb Ascii.eqb Bool.eqb].
    + pose proof (E6 Arm64 ltac:(discriminate)) as Ea.
      pose proof (E6 X86 ltac:(discriminate)) as Ex. cbn [names_marker] in Ea, Ex.
      rewrite Hno, Hyes.
      replace (str_in "arm64-based" (lower (title candidate'))
               || str_in "x86-based" (lower (title candidate'))
               || str_in "32-bit" (lower (title candidate')))%bool
        with (str_in "arm64-based" (lower (title candidate))
              || str_in "x86-based" (lower (title candidate))
              || str_in "32-bit" (lower (title candidate)))%bool
        by (rewrite <- Ea, <- orb_assoc, Ex, orb_assoc; reflexivity).
      branches; intros; try congruence; lia.
    + pose proof (E6 Intel64 ltac:(discriminate)) as Ea.
      pose proof (E6 X86 ltac:(discriminate)) as Ex. cbn [names_marker] in Ea, Ex.
      rewrite Hno, Hyes.
      replace (str_in "x64-based" (lower (title candidate'))
               || str_in "x86-based" (lower (title candidate'))
               || str_in "32-bit" (lower (title candidate')))%bool
        with (str_in "x64-based" (lower (title candidate))
              || str_in "x86-based" (lower (title candidate))
              || str_in "32-bit" (lower (title candidate)))%bool
        by (rewrite <- Ea, <- orb_assoc, Ex, orb_assoc; reflexivity).
      branches; intros; try congruence; lia.
    + pose proof (E6 Intel64 ltac:(discriminate)) as Ea.
      pose proof (E6 Arm64 ltac:(discriminate)) as Ex. cbn [names_marker] in Ea, Ex.
      rewrite Hno, Hyes, <- Ea, <- Ex.
      branches; intros; try congruence; lia.
Qed.

End Architecture.

Section ArchitectureWitness.
Import PyStr Downloader Scenarios.

Lemma score_candidate_architecture_witness :
  family_of_arch (catalog_arch win11_x64) = Some Intel64
  /\ score_candidate (candidate title_arm64) "KB5031354" win11_x64 = -10000
  /\ score_candidate (candidate title_x64) "KB5031354" win11_x64
     = score_candidate (candidate title_no_arch) "KB5031354" win11_x64 + 25.
Proof.
  destruct (score_candidate_architecture "KB5031354" win11_x64 Intel64 eq_refl)
    as [Hreject Hbonus].
  split; [reflexivity|]. split.
  - apply (Hreject _ Arm64); [reflexivity | discriminate | reflexivity].
  - apply Hbonus; [reflexivity | vm_compute; discriminate | reflexivity | reflexivity |].
    repeat split; try reflexivity.
    intros [] ?; try congruence; reflexivity.
Defined.

End ArchitectureWitness.

Section ScenarioChecks.
Import PyStr Downloader Scenarios.

(** The scenario of the specification: on a Windows 11 23H2 x64 host the
    x64 package is selected and the ARM64 one is rejected. *)
Example scenario_x64_selected :
  score_candidate (candidate title_x64) "KB5031354" win11_x64 = 140
  /\ score_candidate (candidate title_arm64) "KB5031354" win11_x64 = -10000
  /\ choose_best_candidate [candidate title_arm64; candidate title_x64]
       "KB5031354" win11_x64
     = (Some (candidate title_x64), None).
Proof. repeat split. Qed.

Example scenario_no_match :
  choose_best_candidate [candidate title_arm64; candidate title_x64]
    "KB9999999" win11_x64
  = (None, Some "No candidate matched baseline constraints.").
Proof. reflexivity. Qed.

(** Both ends of the score range are met. *)
Example score_150 :
  score_candidate
    (candidate "Cumulative Update for Windows 11 Version 23H2 for x64-based Systems (KB5031354) (22631.2428)")
    "KB5031354" win11_x64 = 150.
Proof. reflexivity. Qed.

Example score_30 :
  score_candidate (candidate "Update for Version 22H2 (KB5031354) (19045.3570)")
    "KB5031354" win11_x64 = 30.
Proof. reflexivity. Qed.

End ScenarioChecks.

Section Selection.
Import PyStr Downloader.

Context (kb_id : string) (constraints : BaselineConstraints).

Let score (x : CatalogCandidate) : Z := score_candidate x kb_id constraints.
Let keep (x : CatalogCandidate) : bool := 0 <=? score x.
Let tag (x : CatalogCandidate) : Z * CatalogCandidate := (score x, x).

Lemma scored_loop (acc : list (Z * CatalogCandidate)) (l : list CatalogCandidate) :
  foldl (fun scored cand =>
           let s := score_candidate cand kb_id constraints in
           if 0 <=? s then (scored ++ [(s, cand)])%list else scored) acc l
  = (acc ++ map tag (List.filter keep l))%list.
Proof.
  revert acc. induction l as [|x l IH]; intros acc; cbn.
  - now rewrite app_nil_r.
  - rewrite IH. unfold keep at 2, score, tag.
    destruct (0 <=? score_candidate x kb_id constraints); cbn.
    + now rewrite <- app_assoc.
    + reflexivity.
Qed.

Lemma insert_desc_Forall {A} (P : Z * A -> Prop) x l :
  P x -> Forall P l -> Forall P (insert_desc x l).
Proof.
  intros Hx Hl. induction Hl as [|y l Hy Hl IH]; cbn.
  - constructor; [assumption|constructor].
  - destruct (fst x <? fst y); repeat constructor; assumption.
Qed.

Lemma sort_desc_Forall {A} (P : Z * A -> Prop) l :
  Forall P l -> Forall P (sort_desc l).
Proof.
  induction 1; cbn; [constructor|]. now apply insert_desc_Forall.
Qed.

(** The first element carrying the largest score heads the sorted list. *)
Lemma sort_desc_head {A} (l1 l2 : list (Z * A)) (x : Z * A) :
  Forall (fun y => fst y < fst x) l1 ->
  Forall (fun y => fst y <= fst x) l2 ->
  exists tl, sort_desc (l1 ++ x :: l2) = x :: tl.
Proof.
  intros H1 H2. induction H1 as [|y l1 Hy H1 IH]; cbn.
  - apply sort_desc_Forall in H2.
    destruct (sort_desc l2) as [|z tl]; cbn; [now eexists|].
    inversion_clear H2 as [|? ? Hz _].
    destruct (Z.ltb_spec (fst x) (fst z)); [lia|now eexists].
  - destruct IH as [tl ->]. cbn.
    destruct (Z.ltb_spec (fst y) (fst x)); [now eexists|lia].
Qed.

Lemma forall_filter_map (P : Z -> Prop) (l : list CatalogCandidate) :
  Forall (fun x => P (score x)) l ->
  Forall (fun y => P (fst y)) (map tag (List.filter keep l)).
Proof.
  induction 1 as [|x l Hx Hl IH]; cbn; [constructor|].
  destruct (keep x); cbn; [constructor|]; assumption.
Qed.

(** C1. [choose_best_candidate] selects a candidate only at a score of 90
    or more.  When every score is negative it reports the no-match
    rejection (and only then).  Otherwise, with [best] the earliest
    candidate carrying the largest score, it reports the ambiguous-match
    rejection for a score of at most 89 and selects [best] for 90 or
    more. *)
Theorem choose_best_candidate_threshold (candidates : list CatalogCandidate) :
  (forall cand msg,
      choose_best_candidate candidates kb_id constraints = (Some cand, msg) ->
      msg = None /\ In cand candidates
      /\ 90 <= score_candidate cand kb_id constraints)
  /\ ((forall x, In x candidates -> score_candidate x kb_id constraints < 0)
      <-> choose_best_candidate candidates kb_id constraints = (None, Some NO_MATCH))
  /\ (forall before best after,
        candidates = (before ++ best :: after)%list ->
        (forall x, In x before ->
                   score_candidate x kb_id constraints
                   < score_candidate best kb_id constraints) ->
        (forall x, In x after ->
                   score_candidate x kb_id constraints
                   <= score_candidate best kb_id constraints) ->
        0 <= score_candidate best kb_id constraints ->
        (score_candidate best kb_id constraints <= 89 ->
         choose_best_candidate candidates kb_id constraints
         = (None, Some (ambiguous (score_candidate best kb_id constraints))))
        /\ (90 <= score_candidate best kb_id constraints ->
            choose_best_candidate candidates kb_id constraints = (Some best, None))).
Proof.
  unfold choose_best_candidate. rewrite scored_loop. cbn [app].
  split; [|split].
  - intros cand msg.
    assert (Hin : Forall (fun y => In (snd y) candidates /\ fst y = score (snd y))
                    (sort_desc (map tag (List.filter keep candidates)))).
    { apply sort_desc_Forall, List.Forall_forall. intros y Hy.
      apply in_map_iff in Hy as (x & <- & Hx).
      apply filter_In in Hx as [Hx _]. now split. }
    destruct (sort_desc _) as [|[s b] tl]; [discriminate|].
    inversion_clear Hin as [|? ? [Hb Hs] _]. cbn in Hb, Hs.
    destruct (Z.ltb_spec s 90); intros [= <- <-].
    subst s. unfold score in *. repeat split; [assumption|lia].
  - split.
    + intros Hneg.
      replace (List.filter keep candidates) with (@nil CatalogCandidate); [reflexivity|].
      symmetry. induction candidates as [|x l IH]; [reflexivity|]. cbn.
      unfold keep at 1, score.
      destruct (Z.leb_spec 0 (score_candidate x kb_id constraints)).
      * specialize (Hneg x (or_introl eq_refl)). lia.
      * apply IH. intros y Hy. apply Hneg. now right.
    + intros Hres x Hx.
      destruct (Z.ltb_spec (score_candidate x kb_id constraints) 0); [assumption|].
      exfalso.
      assert (Hne : sort_desc (map tag (List.filter keep candidates)) <> []).
      { assert (Hk : In (tag x) (map tag (List.filter keep candidates))).
        { apply in_map, filter_In. split; [assumption|].
          unfold keep, score. now apply Z.leb_le. }
        revert Hk. generalize (map tag (List.filter keep candidates)).
        intros [|y l]; [intros []|intros _]. cbn.
        destruct (sort_desc l) as [|z tl]; cbn; [discriminate|].
        destruct (fst y <? fst z); discriminate. }
      destruct (sort_desc _) as [|[s b] tl]; [congruence|].
      destruct (s <? 90); [|discriminate].
      unfold ambiguous, NO_MATCH in Hres. cbn in Hres. discriminate.
  - intros before best after -> Hbefore Hafter Hpos.
    rewrite List.filter_app, map_app. cbn [List.filter].
    replace (keep best) with true by (symmetry; now apply Z.leb_le).
    cbn [map].
    destruct (sort_desc_head (map tag (List.filter keep before))
                (map tag (List.filter keep after)) (tag best)) as [tl ->].
    + apply (forall_filter_map (fun s => s < score best)), List.Forall_forall. exact Hbefore.
    + apply (forall_filter_map (fun s => s <= score best)), List.Forall_forall. exact Hafter.
    + unfold tag, score.
      destruct (Z.ltb_spec (score_candidate best kb_id constraints) 90); split;
        intros; solve [reflexivity | lia].
Qed.

End Selection.

Section SelectionWitness.
Import PyStr Downloader Scenarios.

Lemma choose_best_candidate_threshold_witness :
  score_candidate (candidate title_85) "KB5031354" win11_x64 = 85
  /\ score_candidate (candidate title_90) "KB5031354" win11_x64 = 90
  /\ score_candidate (candidate title_90') "KB5031354" win11_x64 = 90
  /\ choose_best_candidate [candidate title_85] "KB5031354" win11_x64
     = (None, Some "Ambiguous match (best score 85 below threshold).")
  /\ choose_best_candidate
       [candidate title_85; candidate title_90; candidate title_90']
       "KB5031354" win11_x64
     = (Some (candidate title_90), None).
Proof.
  split; [reflexivity|]. split; [reflexivity|]. split; [reflexivity|]. split.
  - refine (proj1 (proj2 (proj2 (choose_best_candidate_threshold
              "KB5031354" win11_x64 [candidate title_85]))
              [] (candidate title_85) [] eq_refl _ _ _) _).
    + intros x [].
    + intros x [].
    + vm_compute; discriminate.
    + vm_compute; discriminate.
  - refine (proj2 (proj2 (proj2 (choose_best_candidate_threshold
              "KB5031354" win11_x64
              [candidate title_85; candidate title_90; candidate title_90']))
              [candidate title_85] (candidate title_90) [candidate title_90']
              eq_refl _ _ _) _).
    + intros x [<-|[]]. reflexivity.
    + intros x [<-|[]]. vm_compute; discriminate.
    + vm_compute; discriminate.
    + vm_compute; discriminate.
Defined.

End SelectionWitness.

(** ** Scanner *)

Import PyStr Scanner.

Lemma mk_datetime_parsed (y m : Z) (d : datetime) :
  mk_datetime y m = Some d -> parsed d /\ year d = y /\ month d = m.
Proof.
  unfold mk_datetime, parsed.
  destruct (Z.leb_spec 1 y), (Z.leb_spec y 9999), (Z.leb_spec 1 m), (Z.leb_spec m 12);
    cbn; intros [= <-]; cbn; lia.
Qed.

Lemma strptime_parsed (s : string) (d : datetime) :
  strptime s = Some d -> parsed d.
Proof.
  unfold strptime.
  destruct s as [|d1 [|d2 [|d3 [|d4 [|h mon]]]]]; try discriminate.
  destruct (_ && _); [|discriminate].
  destruct (month_index _ _ _); [|discriminate].
  intros H. now apply mk_datetime_parsed in H.
Qed.

Lemma strptime_truthy (s : string) (d : datetime) :
  strptime s = Some d -> truthy s = true.
Proof. destruct s; [discriminate|reflexivity]. Qed.

Lemma dt_gt_ordinal (a b : datetime) :
  parsed a -> parsed b -> dt_gt a b = (ordinal b <? ordinal a).
Proof.
  unfold parsed, dt_gt, ordinal. intros (Ha & Ha' & Ha'') (Hb & Hb' & Hb'').
  rewrite Ha'', Hb''.
  destruct (Z.ltb_spec (year b) (year a)), (Z.eqb_spec (year a) (year b)),
    (Z.ltb_spec (month b) (month a)), (Z.eqb_spec (month a) (month b)),
    (Z.ltb_spec (12 * year b + month b) (12 * year a + month a)); cbn; lia.
Qed.

Lemma dt_eq_ordinal (a b : datetime) :
  parsed a -> parsed b -> dt_eq a b = (ordinal a =? ordinal b).
Proof.
  unfold parsed, dt_eq, ordinal. intros (Ha & Ha' & Ha'') (Hb & Hb' & Hb'').
  rewrite Ha'', Hb''.
  destruct (Z.eqb_spec (year a) (year b)), (Z.eqb_spec (month a) (month b)),
    (Z.eqb_spec (12 * year a + month a) (12 * year b + month b)); cbn; lia.
Qed.

(** The loop emits [count] months, where [count] is what remains up to the
    end month, cut at the room left under the cap (one month at least). *)
Lemma month_loop_spec (end_ : datetime) (max_months : Z) (Hend : parsed end_) :
  forall (count : nat) (fuel : nat) (y m : Z) (month_ids : list string),
    1 <= y -> 1 <= m <= 12 -> 12 * y + m <= ordinal end_ ->
    Z.of_nat (S count)
    = Z.min (ordinal end_ - (12 * y + m) + 1)
            (Z.max 1 (max_months - Z.of_nat (length month_ids))) ->
    (S count <= fuel)%nat ->
    month_loop fuel end_ max_months y m month_ids
    = Some (Returned (month_ids ++ months_from y m (S count))%list).
Proof.
  induction count as [|count IH]; intros fuel y m month_ids Hy Hm Hle Hcount Hfuel;
    (destruct fuel as [|fuel]; [lia|]); cbn [month_loop].
  all: assert (Hyear : y <= 9999) by (destruct Hend as (? & ? & _); unfold ordinal in Hle; lia).
  all: unfold mk_datetime.
  all: replace ((1 <=? y) && (y <=? 9999) && (1 <=? m) && (m <=? 12)) with true
      by (symmetry; rewrite !andb_true_iff, !Z.leb_le; lia).
  all: set (current := {| year := y; month := m; time_of_day := 0 |}).
  all: assert (Hcur : parsed current) by (unfold parsed; cbn; lia).
  all: rewrite (dt_gt_ordinal _ _ Hcur Hend), (dt_eq_ordinal _ _ Hcur Hend).
  all: replace (ordinal current) with (12 * y + m) by reflexivity.
  all: replace (ordinal end_ <? 12 * y + m) with false by (symmetry; apply Z.ltb_ge; lia).
  all: rewrite length_app; cbn [length].
  - replace ((12 * y + m =? ordinal end_)
             || (max_months <=? Z.of_nat (length month_ids + 1))) with true; [reflexivity|].
    symmetry. apply orb_true_iff.
    destruct (Z.eq_dec (12 * y + m) (ordinal end_)) as [E|E];
      [left; now apply Z.eqb_eq|right; apply Z.leb_le; lia].
  - replace ((12 * y + m =? ordinal end_)
             || (max_months <=? Z.of_nat (length month_ids + 1))) with false.
    2:{ symmetry. apply orb_false_iff. split; [apply Z.eqb_neq|apply Z.leb_gt]; lia. }
    cbn [months_from]. unfold next_month. cbn [fst snd].
    destruct (Z.eqb_spec (m + 1) 13) as [E|E].
    + replace (m =? 12) with true by (symmetry; apply Z.eqb_eq; lia). cbn [fst snd].
      rewrite (IH fuel (y + 1) 1 (month_ids ++ [strftime current])%list);
        rewrite ?length_app; cbn [length]; try lia.
      rewrite <- app_assoc. reflexivity.
    + replace (m =? 12) with false by (symmetry; apply Z.eqb_neq; lia). cbn [fst snd].
      rewrite (IH fuel y (m + 1) (month_ids ++ [strftime current])%list);
        rewrite ?length_app; cbn [length]; try lia.
      rewrite <- app_assoc. reflexivity.
Qed.

Lemma months_from_length (count : nat) (y m : Z) :
  length (months_from y m count) = count.
Proof.
  revert y m. induction count as [|count IH]; intros y m; cbn; [reflexivity|].
  now rewrite IH.
Qed.

(** C7, as the code has it.  With well-formed start and end month
    identifiers the builder returns the consecutive calendar months, in
    chronological order, from the start month (from the end month, when
    the start is after it) up to the end month inclusive, cut at
    [max_months] entries but never below one entry: its length is at most
    [Z.max 1 max_months], and a start after the end yields the single end
    month.  Start "2024-Jan" with end "2024-Mar" yields
    ["2024-Jan"; "2024-Feb"; "2024-Mar"]. *)
Theorem build_month_ids_from_lcu_range (fuel : nat) (now_day1 : datetime)
    (baseline : Baseline) (max_months : Z) (lcu msrc : string)
    (start end_ : datetime) :
  IsAdmin baseline = true ->
  LcuMonthId baseline = Some lcu -> strptime lcu = Some start ->
  MsrcLatestMonthId baseline = Some msrc -> strptime msrc = Some end_ ->
  let first := if dt_gt start end_ then end_ else start in
  let count := Z.min (ordinal end_ - ordinal first + 1) (Z.max 1 max_months) in
  (Z.to_nat count <= fuel)%nat ->
  build_month_ids_from_lcu fuel now_day1 baseline max_months
  = Some (Returned (months_from (year first) (month first) (Z.to_nat count)))
  /\ (forall month_ids,
        build_month_ids_from_lcu fuel now_day1 baseline max_months
        = Some (Returned month_ids) ->
        1 <= Z.of_nat (length month_ids) <= Z.max 1 max_months)
  /\ (dt_gt start end_ = true ->
      build_month_ids_from_lcu fuel now_day1 baseline max_months
      = Some (Returned [strftime end_]))
  /\ build_month_ids_from_lcu 3 now_day1
       (Scenarios.host true (Some "2024-Jan") (Some "2024-Mar")) 48
     = Some (Returned ["2024-Jan"; "2024-Feb"; "2024-Mar"]).
Proof.
  intros Hadmin Hlcu Hstart Hmsrc Hend first count Hfuel.
  pose proof (strptime_parsed _ _ Hstart) as Ps.
  pose proof (strptime_parsed _ _ Hend) as Pe.
  assert (Pf : parsed first) by (unfold first; destruct (dt_gt start end_); assumption).
  assert (Hle : ordinal first <= ordinal end_).
  { unfold first. rewrite (dt_gt_ordinal _ _ Ps Pe).
    destruct (Z.ltb_spec (ordinal end_) (ordinal start)); lia. }
  assert (Hrun : build_month_ids_from_lcu fuel now_day1 baseline max_months
                 = Some (Returned (months_from (year first) (month first) (Z.to_nat count)))).
  { unfold build_month_ids_from_lcu.
    rewrite Hadmin, Hlcu, Hmsrc. cbn [negb opt_truthy str_or_empty].
    rewrite (strptime_truthy _ _ Hstart), (strptime_truthy _ _ Hend).
    cbn [negb]. rewrite Hend, Hstart. fold first.
    destruct (Z.to_nat count) as [|n] eqn:En; [lia|].
    destruct Pf as (Hy & Hm & _).
    rewrite (month_loop_spec end_ max_months Pe n fuel (year first) (month first) []);
      [reflexivity|lia|lia|exact Hle| |lia].
    cbn [length]. change (12 * year first + month first) with (ordinal first).
    rewrite Z.sub_0_r. fold count. lia. }
  split; [exact Hrun|]. split; [|split; [|reflexivity]].
  { intros month_ids. rewrite Hrun. intros [= <-]. rewrite months_from_length. lia. }
  intros Hgt. rewrite Hrun. unfold count, first. rewrite Hgt.
  replace (Z.to_nat _) with 1%nat by lia. reflexivity.
Qed.

Lemma build_month_ids_from_lcu_range_witness :
  build_month_ids_from_lcu 5 Scenarios.clock
    (Scenarios.host true (Some "2024-Nov") (Some "2025-Mar")) 3
  = Some (Returned ["2024-Nov"; "2024-Dec"; "2025-Jan"]).
Proof.
  refine (proj1 (build_month_ids_from_lcu_range 5 Scenarios.clock
                   (Scenarios.host true (Some "2024-Nov") (Some "2025-Mar")) 3
                   "2024-Nov" "2025-Mar"
                   {| year := 2024; month := 11; time_of_day := 0 |}
                   {| year := 2025; month := 3; time_of_day := 0 |}
                   eq_refl eq_refl eq_refl eq_refl eq_refl _)).
  vm_compute. lia.
Defined.

(** C7, as stated, fails for a cap below one: the builder still emits the
    first month, which is more than [max_months = 0] entries. *)
Lemma build_month_ids_from_lcu_cap_counterexample :
  ~ (forall month_ids,
        build_month_ids_from_lcu 3 Scenarios.clock
          (Scenarios.host true (Some "2024-Jan") (Some "2024-Mar")) 0
        = Some (Returned month_ids) ->
        Z.of_nat (length month_ids) <= 0).
Proof.
  intros H. specialize (H ["2024-Jan"] eq_refl). cbn in H. lia.
Qed.

(** C8, as the code has it.  A baseline collected without elevation makes
    the builder raise a [RuntimeError], and so does an elevated baseline
    without a starting month: one exception class for both, told apart by
    the message only.  The elevation check comes first. *)
Theorem build_month_ids_from_lcu_errors (fuel : nat) (now_day1 : datetime)
    (baseline : Baseline) (max_months : Z) :
  (IsAdmin baseline = false ->
   build_month_ids_from_lcu fuel now_day1 baseline max_months
   = Some (Raised (RuntimeError NOT_ADMIN)))
  /\ (IsAdmin baseline = true ->
      LcuMonthId baseline = None \/ LcuMonthId baseline = Some "" ->
      build_month_ids_from_lcu fuel now_day1 baseline max_months
      = Some (Raised (RuntimeError NO_LCU)))
  /\ class_of (RuntimeError NOT_ADMIN) = class_of (RuntimeError NO_LCU)
  /\ NOT_ADMIN <> NO_LCU.
Proof.
  unfold build_month_ids_from_lcu. repeat split.
  - intros ->. reflexivity.
  - intros -> [-> | ->]; reflexivity.
  - discriminate.
Qed.

Lemma build_month_ids_from_lcu_errors_witness :
  build_month_ids_from_lcu 0 Scenarios.clock
    (Scenarios.host false None (Some "2024-Mar")) 48
  = Some (Raised (RuntimeError NOT_ADMIN))
  /\ build_month_ids_from_lcu 0 Scenarios.clock
       (Scenarios.host true None (Some "2024-Mar")) 48
     = Some (Raised (RuntimeError NO_LCU)).
Proof.
  split.
  - exact (proj1 (build_month_ids_from_lcu_errors 0 Scenarios.clock
                    (Scenarios.host false None (Some "2024-Mar")) 48) eq_refl).
  - exact (proj1 (proj2 (build_month_ids_from_lcu_errors 0 Scenarios.clock
                    (Scenarios.host true None (Some "2024-Mar")) 48))
             eq_refl (or_introl eq_refl)).
Defined.

(** C8, as stated, fails: the two failures do not differ in kind, both
    are of the class [RuntimeError]. *)
Lemma build_month_ids_from_lcu_kinds_counterexample :
  ~ (forall e1 e2,
        build_month_ids_from_lcu 0 Scenarios.clock
          (Scenarios.host false None (Some "2024-Mar")) 48 = Some (Raised e1) ->
        build_month_ids_from_lcu 0 Scenarios.clock
          (Scenarios.host true None (Some "2024-Mar")) 48 = Some (Raised e2) ->
        class_of e1 <> class_of e2).
Proof.
  intros H.
  exact (H (RuntimeError NOT_ADMIN) (RuntimeError NO_LCU) eq_refl eq_refl eq_refl).
Qed.



Lemma str_mem_elem_of (x : string) (xs : list string) :
  str_mem x xs = true <-> x ∈ xs.
Proof.
  unfold str_mem. rewrite existsb_exists, list_elem_of_In. split.
  - intros (y & Hy & E). apply String.eqb_eq in E. now subst.
  - intros Hx. exists x. split; [assumption|apply String.eqb_refl].
Qed.

Lemma append_new_elem_of (target : list string) (x y : string) :
  y ∈ append_new target x <-> y ∈ target \/ (y = x /\ truthy x = true).
Proof.
  unfold append_new.
  destruct (truthy x) eqn:Ht, (str_mem x target) eqn:Hm; cbn.
  - apply str_mem_elem_of in Hm. split; [tauto|]. intros [?|[-> _]]; assumption.
  - rewrite elem_of_app, list_elem_of_singleton. tauto.
  - split; [tauto|]. intros [?|[_ ?]]; [assumption|discriminate].
  - split; [tauto|]. intros [?|[_ ?]]; [assumption|discriminate].
Qed.

Lemma foldl_append_new_elem_of (xs target : list string) (y : string) :
  y ∈ foldl append_new target xs
  <-> y ∈ target \/ (y ∈ xs /\ truthy y = true).
Proof.
  revert target. induction xs as [|x xs IH]; intros target; cbn.
  - rewrite elem_of_nil. tauto.
  - rewrite IH, append_new_elem_of, elem_of_cons. split.
    + intros [[?|[-> ?]]|[? ?]]; tauto.
    + intros [?|[[->|?] ?]]; tauto.
Qed.

(** Nothing is appended when every truthy incoming value is already there. *)
Lemma foldl_append_new_id (xs target : list string) :
  (forall x, x ∈ xs -> truthy x = true -> x ∈ target) ->
  foldl append_new target xs = target.
Proof.
  induction xs as [|x xs IH]; intros H; cbn; [reflexivity|].
  assert (E : append_new target x = target).
  { unfold append_new. destruct (truthy x) eqn:Ht; [|reflexivity].
    replace (str_mem x target) with true; [reflexivity|].
    symmetry. apply str_mem_elem_of, H; [left|assumption]. }
  rewrite E. apply IH. intros y Hy. apply H. now right.
Qed.

Lemma merge_entry_absorbed_id (index : gmap string KbEntry) (e : KbEntry) :
  absorbed index e -> merge_entry index e = index.
Proof.
  unfold merge_entry. intros [Hf|(r & Hr & Hm & Hc & Hs)].
  - now rewrite Hf.
  - destruct (truthy (KB e)); [|reflexivity]. cbn [negb]. rewrite Hr.
    rewrite !foldl_append_new_id by assumption.
    apply insert_id. rewrite Hr. now destruct r.
Qed.

Lemma merge_entry_absorbs (index : gmap string KbEntry) (e : KbEntry) :
  absorbed (merge_entry index e) e.
Proof.
  unfold absorbed, merge_entry.
  destruct (truthy (KB e)) eqn:Ht; [right|now left]. cbn [negb].
  eexists. split; [apply lookup_insert_eq|].
  repeat split; cbn; intros x Hx Hx'; apply foldl_append_new_elem_of; tauto.
Qed.

Lemma merge_entry_keeps_absorbed (index : gmap string KbEntry) (e e' : KbEntry) :
  absorbed index e -> absorbed (merge_entry index e') e.
Proof.
  unfold absorbed, merge_entry. intros [Hf|(r & Hr & Hm & Hc & Hs)]; [now left|right].
  destruct (truthy (KB e')); cbn [negb]; [|now exists r].
  destruct (decide (KB e' = KB e)) as [E|E].
  - rewrite E, lookup_insert_eq, Hr. eexists. split; [reflexivity|].
    repeat split; cbn; intros x Hx Hx'; apply foldl_append_new_elem_of; left; auto.
  - rewrite lookup_insert_ne by assumption. now exists r.
Qed.

Lemma merge_kb_entries_keeps_absorbed (incoming : list KbEntry)
    (index : gmap string KbEntry) (e : KbEntry) :
  absorbed index e -> absorbed (merge_kb_entries index incoming) e.
Proof.
  unfold merge_kb_entries. revert index.
  induction incoming as [|e' l IH]; intros index H; cbn; [assumption|].
  now apply IH, merge_entry_keeps_absorbed.
Qed.

Lemma merge_kb_entries_absorbs (incoming : list KbEntry) (index : gmap string KbEntry) :
  Forall (absorbed (merge_kb_entries index incoming)) incoming.
Proof.
  revert index. induction incoming as [|e l IH]; intros index; [constructor|].
  constructor.
  - apply (merge_kb_entries_keeps_absorbed l), merge_entry_absorbs.
  - apply IH.
Qed.

Lemma merge_kb_entries_absorbed_id (incoming : list KbEntry) (index : gmap string KbEntry) :
  Forall (absorbed index) incoming -> merge_kb_entries index incoming = index.
Proof.
  unfold merge_kb_entries. induction 1 as [|e l He Hl IH]; cbn; [reflexivity|].
  now rewrite merge_entry_absorbed_id.
Qed.

Lemma insert_sorted_Permutation (x : string) (l : list string) :
  insert_sorted x l ≡ₚ x :: l.
Proof.
  induction l as [|y l IH]; cbn; [reflexivity|].
  destruct (String.leb x y); [reflexivity|].
  rewrite IH. apply Permutation_swap.
Qed.

Lemma sorted_Permutation (l : list string) : sorted l ≡ₚ l.
Proof.
  induction l as [|x l IH]; cbn; [reflexivity|].
  now rewrite insert_sorted_Permutation, IH.
Qed.

Lemma sorted_set_NoDup (xs : list string) : NoDup (sorted_set xs).
Proof.
  unfold sorted_set. rewrite sorted_Permutation. apply NoDup_elements.
Qed.

(** C6. Merging the same incoming records a second time changes nothing:
    the index after two merges is the index after one, and so is its
    normalised form, whose Months, Cves and Supersedes lists hold no value
    twice. *)
Theorem merge_kb_entries_idempotent (existing : gmap string KbEntry)
    (incoming : list KbEntry) :
  merge_kb_entries (merge_kb_entries existing incoming) incoming
  = merge_kb_entries existing incoming
  /\ normalise_index (merge_kb_entries (merge_kb_entries existing incoming) incoming)
     = normalise_index (merge_kb_entries existing incoming)
  /\ (forall kb e,
        normalise_index (merge_kb_entries existing incoming) !! kb = Some e ->
        NoDup (Months e) /\ NoDup (Cves e) /\ NoDup (Supersedes e)).
Proof.
  assert (E : merge_kb_entries (merge_kb_entries existing incoming) incoming
              = merge_kb_entries existing incoming)
    by apply merge_kb_entries_absorbed_id, merge_kb_entries_absorbs.
  split; [exact E|]. split; [now rewrite E|].
  intros kb e. unfold normalise_index. rewrite lookup_fmap.
  destruct (_ !! kb) as [r|]; [|discriminate]. intros [= <-]. cbn.
  repeat split; apply sorted_set_NoDup.
Qed.



Section Supersedence.

Implicit Types (m sb : gmap string (gset string)) (st : dfs).

Lemma get_set_insert m (k j : string) (s : gset string) :
  get_set (<[k := s]> m) j = if decide (k = j) then s else get_set m j.
Proof.
  unfold get_set. destruct (decide (k = j)) as [->|Hne].
  - now rewrite lookup_insert_eq.
  - now rewrite lookup_insert_ne.
Qed.

Lemma get_set_universe m (k : string) : get_set m k ⊆ universe m.
Proof.
  unfold get_set, universe. destruct (m !! k) as [s|] eqn:E; [|set_solver].
  intros x Hx. apply elem_of_union_list. exists s. split; [|assumption].
  apply list_elem_of_fmap. exists (k, s). split; [reflexivity|].
  now apply elem_of_map_to_list.
Qed.

(** *** The adjacency map is the supersedes relation of the records *)

Lemma add_edge_spec m (k old a y : string) :
  y ∈ get_set (add_edge k m old) a <-> y ∈ get_set m a \/ (a = k /\ y = old).
Proof.
  unfold add_edge. rewrite get_set_insert.
  destruct (decide (k = a)) as [->|Hne]; set_solver.
Qed.

Lemma add_edges_spec (olds : list string) m (k a y : string) :
  y ∈ get_set (foldl (add_edge k) m olds) a
  <-> y ∈ get_set m a \/ (a = k /\ y ∈ olds).
Proof.
  revert m. induction olds as [|old olds IH]; intros m; cbn.
  - set_solver.
  - rewrite IH, add_edge_spec. set_solver.
Qed.

Lemma build_supersedes_map_spec (kb_entries : list KbEntry) (a y : string) :
  y ∈ get_set (build_supersedes_map kb_entries) a <-> supersedes kb_entries a y.
Proof.
  unfold build_supersedes_map, supersedes.
  assert (G : forall m,
    y ∈ get_set
          (foldl (fun m entry =>
                    if negb (truthy (KB entry)) then m
                    else foldl (add_edge (KB entry)) m (Supersedes entry)) m kb_entries) a
    <-> y ∈ get_set m a
        \/ exists entry, entry ∈ kb_entries /\ KB entry = a /\ truthy a = true
                         /\ y ∈ Supersedes entry).
  { induction kb_entries as [|e l IH]; intros m; cbn.
    - set_solver.
    - rewrite IH. destruct (truthy (KB e)) eqn:Ht; cbn.
      + rewrite add_edges_spec. split.
        * intros [[?|[-> ?]]|(e' & ? & ?)]; [tauto| |].
          -- right. exists e. set_solver.
          -- right. exists e'. set_solver.
        * intros [?|(e' & [->|?]%elem_of_cons & <- & ? & ?)]; [tauto|tauto|].
          right. exists e'. tauto.
      + split.
        * intros [?|(e' & ? & ?)]; [tauto|]. right. exists e'. set_solver.
        * intros [?|(e' & [->|?]%elem_of_cons & <- & ? & ?)]; [tauto|congruence|].
          right. exists e'. tauto. }
  rewrite G. unfold get_set at 1. rewrite lookup_empty. set_solver.
Qed.

(** *** One pass over the identifiers a node supersedes *)

Lemma visit_fold (root : string) (olds : list string) st :
  let st' := foldl (visit root) st olds in
  (forall y, y ∈ seen st' <-> y ∈ seen st \/ y ∈ olds)
  /\ (forall y, y ∈ stack st' <-> y ∈ stack st \/ (y ∈ olds /\ y ∉ seen st))
  /\ (forall y, y ∈ logical_present st' <-> y ∈ logical_present st \/ y ∈ olds)
  /\ (forall y q, q ∈ get_set (superseded_by st') y
                  <-> q ∈ get_set (superseded_by st) y \/ (q = root /\ y ∈ olds))
  /\ (forall y, is_Some (superseded_by st' !! y)
                <-> is_Some (superseded_by st !! y) \/ y ∈ olds).
Proof.
  revert st. induction olds as [|old olds IH]; intros st; cbn zeta.
  - cbn. repeat split; set_solver.
  - cbn [foldl]. destruct (IH (visit root st old)) as (Hs & Hk & Hl & Hb & Hd).
    cbn zeta in *.
    assert (Vs : forall y, y ∈ seen (visit root st old) <-> y ∈ seen st \/ y = old).
    { intros y. unfold visit. destruct (decide (old ∈ seen st)); cbn; set_solver. }
    assert (Vk : forall y, y ∈ stack (visit root st old)
                           <-> y ∈ stack st \/ (y = old /\ old ∉ seen st)).
    { intros y. unfold visit. destruct (decide (old ∈ seen st)); cbn; set_solver. }
    assert (Vl : forall y, y ∈ logical_present (visit root st old)
                           <-> y ∈ logical_present st \/ y = old).
    { intros y. unfold visit. destruct (decide (old ∈ seen st)); cbn; set_solver. }
    assert (Vb : forall y q, q ∈ get_set (superseded_by (visit root st old)) y
                  <-> q ∈ get_set (superseded_by st) y \/ (q = root /\ y = old)).
    { intros y q. unfold visit.
      destruct (decide (old ∈ seen st)); cbn; rewrite get_set_insert;
        destruct (decide (old = y)); set_solver. }
    assert (Vd : forall y, is_Some (superseded_by (visit root st old) !! y)
                  <-> is_Some (superseded_by st !! y) \/ y = old).
    { intros y. unfold visit.
      destruct (decide (old ∈ seen st)); cbn; rewrite lookup_insert_is_Some;
        destruct (decide (old = y)); naive_solver. }
    split; [|split; [|split; [|split]]].
    + intros y. rewrite Hs, Vs. set_solver.
    + intros y. rewrite Hk, Vk, Vs, elem_of_cons.
      destruct (decide (y = old)); intuition congruence.
    + intros y. rewrite Hl, Vl. set_solver.
    + intros y q. rewrite Hb, Vb. set_solver.
    + intros y. rewrite Hd, Vd. set_solver.
Qed.

Lemma visit_fold_nodup (root : string) (olds : list string) st :
  NoDup (stack st) -> (forall y, y ∈ stack st -> y ∈ seen st) ->
  NoDup (pushed st) -> (forall y, y ∈ pushed st -> y ∈ seen st) ->
  let st' := foldl (visit root) st olds in
  NoDup (stack st') /\ NoDup (pushed st')
  /\ (forall y, y ∈ pushed st' -> y ∈ seen st').
Proof.
  revert st. induction olds as [|old olds IH]; intros st Hk Hks Hp Hps; cbn zeta.
  - cbn. auto.
  - cbn [foldl]. apply IH; unfold visit; destruct (decide (old ∈ seen st)); cbn;
      try assumption.
    + apply NoDup_cons. split; [|assumption]. intros H. auto.
    + intros y [->|Hy]%elem_of_cons; set_solver.
    + apply NoDup_app. repeat split; [assumption| |apply NoDup_singleton].
      intros x Hx ->%list_elem_of_singleton. auto.
    + intros y [Hy| ->%list_elem_of_singleton]%elem_of_app; set_solver.
Qed.

Lemma visit_fold_work_left m (root : string) (olds : list string) st :
  (forall y, y ∈ olds -> y ∈ universe m) ->
  (work_left m (foldl (visit root) st olds) <= work_left m st)%nat.
Proof.
  revert st. induction olds as [|old olds IH]; intros st Hu; cbn [foldl]; [lia|].
  etransitivity; [apply IH; intros y Hy; apply Hu; now right|].
  unfold work_left, visit. destruct (decide (old ∈ seen st)) as [Hin|Hout]; cbn; [lia|].
  assert (Hlt : (size (universe m ∖ (seen st ∪ {[old]})) < size (universe m ∖ seen st))%nat).
  { apply subset_size. split; [set_solver|].
    intros Hsub. specialize (Hsub old). specialize (Hu old). set_solver. }
  lia.
Qed.


End Supersedence.

Section Traversal.

Context (kb_entries : list KbEntry).

Let smap : gmap string (gset string) := build_supersedes_map kb_entries.
Let R : relation string := supersedes kb_entries.

Lemma older_supersedes (x y : string) : y ∈ elements (get_set smap x) <-> R x y.
Proof. rewrite elem_of_elements. apply build_supersedes_map_spec. Qed.

Lemma tc_last (x z : string) : tc R x z -> exists y, rtc R x y /\ R y z.
Proof.
  induction 1 as [x z H|x w z H _ (y & Hy & Hz)].
  - exists x. split; [reflexivity|assumption].
  - exists y. split; [|assumption]. now apply rtc_l with w.
Qed.

(** One iteration of [while stack] keeps the invariant. *)
Lemma dfs_inv_step (root : string) (lp0 : gset string) (sb0 : gmap string (gset string))
    (st : dfs) (current : string) (rest : list string) :
  dfs_inv kb_entries root lp0 sb0 st -> stack st = current :: rest ->
  dfs_inv kb_entries root lp0 sb0
    (foldl (visit root)
       {| stack := rest; seen := seen st; logical_present := logical_present st;
          superseded_by := superseded_by st; pushed := pushed st |}
       (elements (get_set smap current))).
Proof.
  intros I Hstack.
  set (st1 := {| stack := rest; seen := seen st; logical_present := logical_present st;
                 superseded_by := superseded_by st; pushed := pushed st |}).
  set (olds := elements (get_set smap current)).
  destruct (visit_fold root olds st1) as (Hs & Hk & Hl & Hb & Hd).
  cbn zeta in Hs, Hk, Hl, Hb, Hd. cbn [st1 seen stack logical_present superseded_by] in *.
  assert (Hnd : NoDup (current :: rest)) by (rewrite <- Hstack; apply I).
  apply NoDup_cons in Hnd as [Hcur Hrest].
  assert (Hrs : forall y, y ∈ rest -> y ∈ seen st).
  { intros y Hy. apply I. rewrite Hstack. now right. }
  assert (Hcs : rtc R root current).
  { apply (inv_reach _ _ _ _ _ I), I. rewrite Hstack. now left. }
  destruct (visit_fold_nodup root olds st1 Hrest Hrs
              (inv_pushed_nodup _ _ _ _ _ I) (inv_pushed_seen _ _ _ _ _ I))
    as (Nk & Np & Nps).
  assert (Htc : forall y, y ∈ olds -> tc R root y).
  { intros y Hy%older_supersedes. eapply tc_rtc_l; [exact Hcs|now apply tc_once]. }
  split.
  - apply Hs. left. apply I.
  - intros x [Hx|[Hx _]]%Hk; apply Hs; auto.
  - exact Nk.
  - exact Nps.
  - exact Np.
  - intros x [Hx|Hx%older_supersedes]%Hs.
    + now apply (inv_reach _ _ _ _ _ I).
    + now apply rtc_r with current.
  - intros x y Hx Hnk Hxy.
    destruct (decide (x ∈ seen st)) as [Hin|Hout].
    + destruct (decide (x = current)) as [->|Hne].
      * apply older_supersedes in Hxy.
        split; [apply Hs|split; [apply Hl|apply Hb]]; auto.
      * assert (Hnot : x ∉ stack st).
        { rewrite Hstack. intros [->|Hr]%elem_of_cons; [congruence|].
          apply Hnk, Hk. now left. }
        destruct (inv_done _ _ _ _ _ I x y Hin Hnot Hxy) as (Ys & Yl & Yb).
        split; [apply Hs|split; [apply Hl|apply Hb]]; auto.
    + exfalso. apply Hnk, Hk. right. split; [|assumption].
      apply Hs in Hx as [?|?]; [contradiction|assumption].
  - intros y [Hy|Hy]%Hl; [now apply (inv_lp_sound _ _ _ _ _ I)|right; auto].
  - intros y q [Hq|[-> Hy]]%Hb; [now apply (inv_sb_sound _ _ _ _ _ I)|right; auto].
  - intros y [Hy|Hy]%Hd; [now apply (inv_dom_sound _ _ _ _ _ I)|right; auto].
  - intros y Hy. apply Hl. left. now apply I.
  - intros y q Hq. apply Hb. left. now apply I.
  - intros y Hy. apply Hd. left. now apply I.
Qed.

(** With fuel for the work left, the loop runs until the stack is empty. *)
Lemma expand_spec (root : string) (lp0 : gset string) (sb0 : gmap string (gset string)) :
  forall (fuel : nat) (st : dfs),
    dfs_inv kb_entries root lp0 sb0 st -> (work_left smap st <= fuel)%nat ->
    exists st', expand fuel smap root st = Some st'
                /\ dfs_inv kb_entries root lp0 sb0 st' /\ stack st' = [].
Proof.
  induction fuel as [|fuel IH]; intros st I Hfuel.
  - unfold work_left in Hfuel. destruct (stack st) as [|c rest] eqn:E; [|cbn in Hfuel; lia].
    exists st. cbn. rewrite E. auto.
  - cbn [expand]. destruct (stack st) as [|current rest] eqn:E; [now exists st|].
    apply IH; [now apply dfs_inv_step|].
    etransitivity.
    { apply visit_fold_work_left. intros y Hy%elem_of_elements.
      now apply (get_set_universe smap current). }
    unfold work_left in *. rewrite E in Hfuel. cbn in *. lia.
Qed.

(** The traversal of one root: what it adds to the accumulators is what the
    root supersedes, directly or through other records, attributed to the
    root. *)
Lemma traverse_root_spec (root : string) (lp0 : gset string)
    (sb0 : gmap string (gset string)) (fuel : nat) :
  (fuel_bound kb_entries <= fuel)%nat ->
  exists st', traverse_root fuel smap (lp0, sb0) root = Some st'
    /\ (forall y, y ∈ logical_present st' <-> y ∈ lp0 \/ tc R root y)
    /\ (forall y q, q ∈ get_set (superseded_by st') y
                    <-> q ∈ get_set sb0 y \/ (q = root /\ tc R root y))
    /\ (forall y, is_Some (superseded_by st' !! y) <-> is_Some (sb0 !! y) \/ tc R root y)
    /\ NoDup (pushed st') /\ stack st' = [].
Proof.
  intros Hfuel. unfold traverse_root. cbn [fst snd].
  set (st0 := {| stack := [root]; seen := {[root]}; logical_present := lp0;
                 superseded_by := sb0; pushed := [root] |}).
  assert (I0 : dfs_inv kb_entries root lp0 sb0 st0).
  { split; cbn; try tauto.
    - set_solver.
    - intros x. rewrite list_elem_of_singleton. set_solver.
    - apply NoDup_singleton.
    - intros x. rewrite list_elem_of_singleton. set_solver.
    - apply NoDup_singleton.
    - intros x ->%elem_of_singleton. reflexivity.
    - intros x y ->%elem_of_singleton Hn. exfalso. apply Hn. now left. }
  destruct (expand_spec root lp0 sb0 fuel st0 I0) as (st' & Hrun & I & Hempty).
  { unfold work_left, fuel_bound in *. cbn. fold smap in Hfuel.
    pose proof (subseteq_size (universe smap ∖ {[root]}) (universe smap)
                  ltac:(set_solver)). lia. }
  exists st'. split; [exact Hrun|].
  assert (Hseen : forall x, rtc R root x -> x ∈ seen st').
  { apply (rtc_ind_r (fun x => x ∈ seen st')); [apply I|].
    intros x y _ Hxy Hx.
    apply (inv_done _ _ _ _ _ I x y); [assumption| |assumption].
    rewrite Hempty. apply not_elem_of_nil. }
  assert (Hdone : forall y, tc R root y ->
            y ∈ logical_present st' /\ root ∈ get_set (superseded_by st') y).
  { intros y (x & Hx & Hxy)%tc_last.
    apply (inv_done _ _ _ _ _ I x y); [now apply Hseen| |assumption].
    rewrite Hempty. apply not_elem_of_nil. }
  repeat split.
  - apply I.
  - intros [?|?]; [now apply I|now apply Hdone].
  - apply I.
  - intros [?|[-> ?]]; [now apply I|now apply Hdone].
  - apply I.
  - intros [?|Hy]; [now apply I|].
    apply Hdone in Hy as [_ Hy]. unfold get_set in Hy.
    destruct (superseded_by st' !! y); [eauto|set_solver].
  - apply I.
  - exact Hempty.
Qed.

End Traversal.


Lemma insert_sorted_Sorted (x : string) (l : list string) :
  Sorted str_le l -> Sorted str_le (insert_sorted x l).
Proof.
  induction l as [|y l IH]; intros Hl; cbn.
  - repeat constructor.
  - destruct (String.leb x y) eqn:E.
    + constructor; [assumption|]. now constructor.
    + assert (Hyx : str_le y x).
      { destruct (String.leb_total x y) as [H|H]; [congruence|exact H]. }
      apply Sorted_inv in Hl as [Hl Hhd]. constructor; [now apply IH|].
      destruct l as [|z l]; cbn; [now constructor|].
      destruct (String.leb x z); constructor; [assumption|].
      now apply HdRel_inv in Hhd.
Qed.

Lemma sorted_Sorted (l : list string) : Sorted str_le (sorted l).
Proof.
  induction l as [|x l IH]; cbn; [constructor|]. now apply insert_sorted_Sorted.
Qed.

(** More fuel does not change a result. *)
Lemma expand_fuel_mono (m : gmap string (gset string)) (root : string) :
  forall (fuel fuel' : nat) (st st' : dfs),
    expand fuel m root st = Some st' -> (fuel <= fuel')%nat ->
    expand fuel' m root st = Some st'.
Proof.
  induction fuel as [|fuel IH]; intros fuel' st st' Hrun Hle.
  - cbn in Hrun. destruct (stack st) eqn:E; [|discriminate].
    destruct fuel'; cbn; now rewrite E.
  - destruct fuel' as [|fuel']; [lia|]. cbn [expand] in *.
    destruct (stack st); [assumption|]. apply (IH fuel'); [assumption|lia].
Qed.

Lemma expand_roots_fuel_mono (m : gmap string (gset string)) (fuel fuel' : nat) :
  (fuel <= fuel')%nat ->
  forall (roots : list string) (acc r : gset string * gmap string (gset string)),
    expand_roots fuel m roots acc = Some r -> expand_roots fuel' m roots acc = Some r.
Proof.
  intros Hle. unfold expand_roots.
  induction roots as [|root roots IH]; intros acc r; cbn [foldl]; [trivial|].
  unfold traverse_root at 2 4.
  destruct (expand fuel m root _) as [st|] eqn:E.
  - rewrite (expand_fuel_mono m root fuel fuel' _ st E Hle). apply IH.
  - intros H. exfalso. clear -H. induction roots as [|x l IHl]; cbn in H; [discriminate|auto].
Qed.

Lemma compute_supersedence_fuel_mono (fuel fuel' : nat) (kb_entries : list KbEntry)
    (installed_kbs : gset string) (r : gset string * gmap string (list string)) :
  (fuel <= fuel')%nat ->
  compute_supersedence fuel kb_entries installed_kbs = Some r ->
  compute_supersedence fuel' kb_entries installed_kbs = Some r.
Proof.
  intros Hle. unfold compute_supersedence.
  destruct (expand_roots fuel _ _ _) as [[lp sb]|] eqn:E; [|discriminate].
  now rewrite (expand_roots_fuel_mono _ fuel fuel' Hle _ _ _ E).
Qed.

Lemma expand_roots_spec (kb_entries : list KbEntry) (fuel : nat) :
  (fuel_bound kb_entries <= fuel)%nat ->
  forall (roots : list string) (lp0 : gset string) (sb0 : gmap string (gset string)),
  exists lp sb,
    expand_roots fuel (build_supersedes_map kb_entries) roots (lp0, sb0) = Some (lp, sb)
    /\ (forall y, y ∈ lp <-> y ∈ lp0 \/ exists r, r ∈ roots /\ tc (supersedes kb_entries) r y)
    /\ (forall y q, q ∈ get_set sb y
                    <-> q ∈ get_set sb0 y \/ (q ∈ roots /\ tc (supersedes kb_entries) q y))
    /\ (forall y, is_Some (sb !! y)
                  <-> is_Some (sb0 !! y)
                      \/ exists r, r ∈ roots /\ tc (supersedes kb_entries) r y).
Proof.
  intros Hfuel. unfold expand_roots.
  induction roots as [|root roots IH]; intros lp0 sb0; cbn [foldl].
  - exists lp0, sb0. split; [reflexivity|]. set_solver.
  - destruct (traverse_root_spec kb_entries root lp0 sb0 fuel Hfuel)
      as (st & -> & Hl & Hb & Hd & _).
    destruct (IH (logical_present st) (superseded_by st)) as (lp & sb & -> & Hl' & Hb' & Hd').
    exists lp, sb. split; [reflexivity|]. split; [|split].
    + intros y. rewrite Hl', Hl. set_solver.
    + intros y q. rewrite Hb', Hb. set_solver.
    + intros y. rewrite Hd', Hd. set_solver.
Qed.

(** What the resolver computes, given fuel for its loops. *)
Lemma compute_supersedence_spec (kb_entries : list KbEntry) (installed_kbs : gset string)
    (fuel : nat) :
  (fuel_bound kb_entries <= fuel)%nat ->
  exists lp sb,
    compute_supersedence fuel kb_entries installed_kbs = Some (lp, sb)
    /\ (forall y, y ∈ lp <-> y ∈ installed_kbs
                             \/ exists r, r ∈ installed_kbs /\ tc (supersedes kb_entries) r y)
    /\ (forall old roots, sb !! old = Some roots ->
          Sorted str_le roots
          /\ forall q, q ∈ roots <-> q ∈ installed_kbs /\ tc (supersedes kb_entries) q old)
    /\ (forall old, is_Some (sb !! old)
                    <-> exists r, r ∈ installed_kbs /\ tc (supersedes kb_entries) r old).
Proof.
  intros Hfuel. unfold compute_supersedence.
  destruct (expand_roots_spec kb_entries fuel Hfuel (elements installed_kbs) installed_kbs ∅)
    as (lp & sb & -> & Hl & Hb & Hd).
  eexists _, _. split; [reflexivity|]. split; [|split].
  - intros y. rewrite Hl. setoid_rewrite elem_of_elements. reflexivity.
  - intros old roots. rewrite lookup_fmap.
    destruct (sb !! old) as [s|] eqn:E; [|discriminate]. intros [= <-].
    split; [apply sorted_Sorted|]. intros q.
    rewrite sorted_Permutation, elem_of_elements.
    specialize (Hb old q). unfold get_set in Hb. rewrite E, lookup_empty in Hb.
    rewrite Hb, elem_of_elements. set_solver.
  - intros old. rewrite lookup_fmap, fmap_is_Some, Hd, lookup_empty.
    setoid_rewrite elem_of_elements. split.
    + intros [[? [=]]|?]; assumption.
    + auto.
Qed.

(** C2. Whatever the supersedes relation of the records, the
    logically-present set that [compute_supersedence] returns contains
    every installed identifier; and with fuel for its loops it does
    return. *)
Theorem compute_supersedence_keeps_installed (kb_entries : list KbEntry)
    (installed_kbs : gset string) (fuel : nat) :
  ((fuel_bound kb_entries <= fuel)%nat ->
   is_Some (compute_supersedence fuel kb_entries installed_kbs))
  /\ (forall lp sb,
        compute_supersedence fuel kb_entries installed_kbs = Some (lp, sb) ->
        installed_kbs ⊆ lp).
Proof.
  split.
  - intros Hfuel.
    destruct (compute_supersedence_spec kb_entries installed_kbs fuel Hfuel)
      as (lp & sb & -> & _). eauto.
  - intros lp sb Hrun.
    apply (compute_supersedence_fuel_mono fuel (Nat.max fuel (fuel_bound kb_entries)))
      in Hrun; [|lia].
    destruct (compute_supersedence_spec kb_entries installed_kbs
                (Nat.max fuel (fuel_bound kb_entries)) ltac:(lia))
      as (lp' & sb' & Hrun' & Hl & _).
    rewrite Hrun in Hrun'. injection Hrun' as <- <-.
    intros y Hy. apply Hl. now left.
Qed.

Lemma compute_supersedence_keeps_installed_witness :
  compute_supersedence 5 Scenarios.cyclic {["KB1"; "KB9"]}
  = Some ({["KB1"; "KB2"; "KB3"; "KB9"]},
          {["KB1" := ["KB1"]; "KB2" := ["KB1"]; "KB3" := ["KB1"]]})
  /\ ({["KB1"; "KB9"]} : gset string) ⊆ {["KB1"; "KB2"; "KB3"; "KB9"]}.
Proof.
  split; [vm_compute; reflexivity|].
  apply (proj2 (compute_supersedence_keeps_installed Scenarios.cyclic {["KB1"; "KB9"]} 5)
           _ {["KB1" := ["KB1"]; "KB2" := ["KB1"]; "KB3" := ["KB1"]]}).
  vm_compute. reflexivity.
Defined.

(** C4. Attribution is to the installed root of the traversal.  With
    "KB5031354" installed, superseding "KB5029351", which supersedes
    "KB5026372", all three are logically present and the two older ones are
    superseded by ["KB5031354"].  In general the logically-present set is
    the installed set with everything an installed identifier supersedes
    through one or more records; [superseded_by] has an entry for exactly
    those superseded identifiers, and the entry of [old] is the sorted
    list of the installed identifiers that reach [old]. *)
Theorem compute_supersedence_root_attribution :
  compute_supersedence 5 Scenarios.chain {["KB5031354"]}
  = Some ({["KB5031354"; "KB5029351"; "KB5026372"]},
          {["KB5029351" := ["KB5031354"]; "KB5026372" := ["KB5031354"]]})
  /\ forall (kb_entries : list KbEntry) (installed_kbs : gset string) (fuel : nat),
       ((fuel_bound kb_entries <= fuel)%nat ->
        is_Some (compute_supersedence fuel kb_entries installed_kbs))
       /\ forall lp sb,
            compute_supersedence fuel kb_entries installed_kbs = Some (lp, sb) ->
            (forall y, y ∈ lp
                       <-> y ∈ installed_kbs
                           \/ exists root, root ∈ installed_kbs
                                           /\ tc (supersedes kb_entries) root y)
            /\ (forall old roots, sb !! old = Some roots ->
                  Sorted str_le roots
                  /\ forall root, root ∈ roots
                                  <-> root ∈ installed_kbs
                                      /\ tc (supersedes kb_entries) root old)
            /\ (forall old, is_Some (sb !! old)
                            <-> exists root, root ∈ installed_kbs
                                             /\ tc (supersedes kb_entries) root old).
Proof.
  split; [vm_compute; reflexivity|].
  intros kb_entries installed_kbs fuel. split.
  - intros Hfuel.
    destruct (compute_supersedence_spec kb_entries installed_kbs fuel Hfuel)
      as (lp & sb & -> & _). eauto.
  - intros lp sb Hrun.
    apply (compute_supersedence_fuel_mono fuel (Nat.max fuel (fuel_bound kb_entries)))
      in Hrun; [|lia].
    destruct (compute_supersedence_spec kb_entries installed_kbs
                (Nat.max fuel (fuel_bound kb_entries)) ltac:(lia))
      as (lp' & sb' & Hrun' & Hspec).
    rewrite Hrun in Hrun'. injection Hrun' as <- <-. exact Hspec.
Qed.

Lemma compute_supersedence_root_attribution_witness :
  (fuel_bound Scenarios.cyclic <= 7)%nat
  /\ compute_supersedence 7 Scenarios.cyclic {["KB2"; "KB3"]}
     = Some ({["KB1"; "KB2"; "KB3"]},
             {["KB1" := ["KB2"; "KB3"]; "KB2" := ["KB2"; "KB3"];
               "KB3" := ["KB2"; "KB3"]]})
  /\ (forall root, root ∈ ["KB2"; "KB3"]
                   <-> root ∈ ({["KB2"; "KB3"]} : gset string)
                       /\ tc (supersedes Scenarios.cyclic) root "KB1").
Proof.
  split; [vm_compute; lia|]. split; [vm_compute; reflexivity|].
  refine (proj2 (proj1 (proj2 (proj2 (proj2 compute_supersedence_root_attribution
            Scenarios.cyclic {["KB2"; "KB3"]} 7%nat) _ _ _)) "KB1" ["KB2"; "KB3"] _)).
  - vm_compute. reflexivity.
  - vm_compute. reflexivity.
Defined.

(** C5. [compute_supersedence] terminates on every input, cyclic
    supersedes relations included: fuel for [fuel_bound] iterations of the
    [while stack] loop is enough for it to return, and more fuel does not
    change the result.  The traversal of any root, from any accumulators,
    ends with an empty stack having pushed no identifier twice. *)
Theorem compute_supersedence_terminates (kb_entries : list KbEntry)
    (installed_kbs : gset string) (fuel : nat) :
  (fuel_bound kb_entries <= fuel)%nat ->
  (exists r, forall fuel', (fuel <= fuel')%nat ->
             compute_supersedence fuel' kb_entries installed_kbs = Some r)
  /\ (forall root acc,
        exists st, traverse_root fuel (build_supersedes_map kb_entries) acc root = Some st
                   /\ stack st = [] /\ NoDup (pushed st)).
Proof.
  intros Hfuel. split.
  - destruct (compute_supersedence_spec kb_entries installed_kbs fuel Hfuel)
      as (lp & sb & Hrun & _).
    exists (lp, sb). intros fuel' Hle.
    now apply (compute_supersedence_fuel_mono fuel fuel').
  - intros root [lp0 sb0].
    destruct (traverse_root_spec kb_entries root lp0 sb0 fuel Hfuel)
      as (st & Hrun & _ & _ & _ & Hnd & Hempty).
    eauto.
Qed.

Lemma compute_supersedence_terminates_witness :
  (fuel_bound Scenarios.cyclic <= 7)%nat
  /\ (exists r, forall fuel', (7 <= fuel')%nat ->
                compute_supersedence fuel' Scenarios.cyclic {["KB1"; "KB2"]} = Some r)
  /\ exists st, traverse_root 7 (build_supersedes_map Scenarios.cyclic)
                  ({["KB1"; "KB2"]}, ∅) "KB1" = Some st
                /\ stack st = [] /\ NoDup (pushed st).
Proof.
  assert (H : (fuel_bound Scenarios.cyclic <= 7)%nat) by (vm_compute; lia).
  split; [exact H|].
  destruct (compute_supersedence_terminates Scenarios.cyclic {["KB1"; "KB2"]} 7%nat H)
    as [Hrun Hroot].
  split; [exact Hrun|apply Hroot].
Defined.

(** * Further properties *)
(** ** Chunks *)

Lemma concat_chunks {A : Type} (l : list A) (n c : nat) :
  concat ((fun k => take n (drop (k * n) l)) <$> seq 0 c) = take (c * n) l.
Proof.
  induction c as [|c IH]; [reflexivity|].
  rewrite seq_S, fmap_app, concat_app, IH. cbn [fmap list_fmap concat plus].
  rewrite app_nil_r, take_take_drop. f_equal. lia.
Qed.

Lemma chunk_list_spec {A : Type} (items : list A) (chunk_size : Z) :
  1 <= chunk_size ->
  let n := Z.to_nat chunk_size in
  let c := Z.to_nat ((Z.of_nat (length items) + chunk_size - 1) / chunk_size) in
  chunk_list items chunk_size
  = Returned ((fun k => take n (drop (k * n) items)) <$> seq 0 c)
  /\ (length items <= c * n)%nat
  /\ (forall k, (k < c)%nat -> (k * n < length items)%nat).
Proof.
  intros Hn n c. unfold chunk_list, range_from_0.
  destruct (Z.eqb_spec chunk_size 0); [lia|].
  destruct (Z.ltb_spec chunk_size 0); [lia|].
  fold c. rewrite <- list_fmap_compose.
  set (len := Z.of_nat (length items)) in *.
  assert (Hq : 0 <= (len + chunk_size - 1) / chunk_size)
    by (apply Z.div_pos; lia).
  assert (Hlo : chunk_size * ((len + chunk_size - 1) / chunk_size) <= len + chunk_size - 1)
    by (apply Z.mul_div_le; lia).
  assert (Hhi : len + chunk_size - 1 < chunk_size * Z.succ ((len + chunk_size - 1) / chunk_size))
    by (apply Z.mul_succ_div_gt; lia).
  split; [|split].
  - f_equal. apply list_fmap_ext. intros _ k _. cbn.
    f_equal. f_equal. unfold n. rewrite Z2Nat.inj_mul, Nat2Z.id by lia. reflexivity.
  - unfold c, n. nia.
  - intros k Hk. unfold c, n in *. nia.
Qed.

(** X1. For a chunk size of one or more, [chunk_list] cuts the list into
    consecutive chunks: put together again they are the list, there are
    ceil(len / chunk_size) of them, none is empty or longer than the
    chunk size, and all but the last are full. *)
Theorem chunk_list_partition {A : Type} (items : list A) (chunk_size : Z) :
  1 <= chunk_size ->
  exists chunks,
    chunk_list items chunk_size = Returned chunks
    /\ concat chunks = items
    /\ Z.of_nat (length chunks)
       = (Z.of_nat (length items) + chunk_size - 1) / chunk_size
    /\ (forall i chunk, chunks !! i = Some chunk ->
          1 <= Z.of_nat (length chunk) <= chunk_size
          /\ ((S i < length chunks)%nat -> Z.of_nat (length chunk) = chunk_size)).
Proof.
  intros Hn. destruct (chunk_list_spec items chunk_size Hn) as (Hrun & Hcover & Hstart).
  cbn zeta in *.
  set (n := Z.to_nat chunk_size) in *.
  set (c := Z.to_nat ((Z.of_nat (length items) + chunk_size - 1) / chunk_size)) in *.
  eexists. split; [exact Hrun|]. split; [|split].
  - rewrite concat_chunks. now apply take_ge.
  - rewrite length_fmap, length_seq. unfold c. rewrite Z2Nat.id; [reflexivity|].
    apply Z.div_pos; lia.
  - intros i chunk. rewrite list_lookup_fmap, length_fmap, length_seq.
    destruct (seq 0 c !! i) as [k|] eqn:E; [|discriminate]. cbn. intros [= <-].
    apply lookup_seq in E as [-> Hi]. cbn [plus].
    rewrite length_take, length_drop. pose proof (Hstart i Hi) as Hs.
    split; [unfold n in *; lia|].
    intros Hnext. pose proof (Hstart (S i) Hnext) as Hs'. unfold n in *. lia.
Qed.

Lemma chunk_list_partition_witness :
  1 <= 3
  /\ exists chunks,
       chunk_list ["2024-Jan"; "2024-Feb"; "2024-Mar"; "2024-Apr"] 3 = Returned chunks
       /\ concat chunks = ["2024-Jan"; "2024-Feb"; "2024-Mar"; "2024-Apr"].
Proof.
  split; [lia|].
  assert (H3 : 1 <= 3) by lia.
  destruct (chunk_list_partition ["2024-Jan"; "2024-Feb"; "2024-Mar"; "2024-Apr"] 3 H3)
    as (chunks & Hrun & Hcat & _).
  exists chunks. split; assumption.
Defined.

(** ** The month range for any baseline and clock *)

Lemma month_loop_length (end_ : datetime) (max_months : Z) :
  forall (fuel : nat) (y m : Z) (month_ids out : list string),
    month_loop fuel end_ max_months y m month_ids = Some (Returned out) ->
    Z.of_nat (length month_ids) <= Z.of_nat (length out)
    /\ Z.of_nat (length out) <= Z.max max_months (Z.of_nat (length month_ids) + 1).
Proof.
  induction fuel as [|fuel IH]; intros y m month_ids out; cbn [month_loop]; [discriminate|].
  destruct (mk_datetime y m) as [current|]; [|discriminate].
  destruct (dt_gt current end_); [intros [= <-]; lia|].
  destruct (dt_eq current end_ || (max_months <=? _)) eqn:Estop.
  - intros [= <-]. rewrite length_app. cbn. lia.
  - apply orb_false_iff in Estop as [_ Hcap]. apply Z.leb_gt in Hcap.
    rewrite length_app in Hcap. cbn [length] in Hcap.
    destruct (m + 1 =? 13); intros H; apply IH in H;
      rewrite length_app in H; cbn [length] in H; lia.
Qed.

(** The first iteration appends: the start, clamped, is not after the end. *)
Lemma month_loop_nonempty (end_ : datetime) (max_months : Z) (fuel : nat)
    (y m : Z) (out : list string) :
  (forall current, mk_datetime y m = Some current -> dt_gt current end_ = false) ->
  month_loop fuel end_ max_months y m [] = Some (Returned out) ->
  1 <= Z.of_nat (length out).
Proof.
  intros Hle. destruct fuel as [|fuel]; cbn [month_loop]; [discriminate|].
  destruct (mk_datetime y m) as [current|]; [|discriminate].
  rewrite (Hle current eq_refl).
  destruct (dt_eq current end_ || _).
  - intros [= <-]. cbn. lia.
  - cbn [app]. destruct (m + 1 =? 13); intros H; apply month_loop_length in H; cbn in H; lia.
Qed.

Lemma dt_gt_irrefl_day1 (d current : datetime) :
  0 <= time_of_day d -> mk_datetime (year d) (month d) = Some current ->
  dt_gt current d = false.
Proof.
  intros Htod H. apply mk_datetime_parsed in H as ((_ & _ & Ht) & Hy & Hm).
  unfold dt_gt. rewrite Hy, Hm, Ht, !Z.ltb_irrefl, !Z.eqb_refl. cbn.
  apply Z.ltb_ge. assumption.
Qed.

Lemma build_month_ids_from_lcu_length (fuel : nat) (now_day1 : datetime)
    (baseline : Baseline) (max_months : Z) (month_ids : list string) :
  0 <= time_of_day now_day1 ->
  build_month_ids_from_lcu fuel now_day1 baseline max_months = Some (Returned month_ids) ->
  1 <= Z.of_nat (length month_ids) <= Z.max 1 max_months.
Proof.
  intros Hnow. unfold build_month_ids_from_lcu.
  destruct (IsAdmin baseline); [|discriminate]. cbn [negb].
  destruct (opt_truthy (LcuMonthId baseline)); [|discriminate]. cbn [negb].
  destruct (if opt_truthy (MsrcLatestMonthId baseline) then _ else _) as [end_|] eqn:Eend;
    [|discriminate].
  assert (Htod : 0 <= time_of_day end_).
  { destruct (opt_truthy (MsrcLatestMonthId baseline)).
    - apply strptime_parsed in Eend as (_ & _ & ->). lia.
    - simplify_eq. assumption. }
  destruct (strptime (str_or_empty (LcuMonthId baseline))) as [start|] eqn:Estart;
    [|discriminate].
  apply strptime_parsed in Estart as Ps.
  intros Hrun. split.
  - eapply month_loop_nonempty; [|exact Hrun].
    intros current Hcur. destruct (dt_gt start end_) eqn:Egt.
    + now apply dt_gt_irrefl_day1.
    + apply mk_datetime_parsed in Hcur as ((_ & _ & Ht) & Hy & Hm).
      destruct Ps as (_ & _ & Hs).
      rewrite <- Egt. unfold dt_gt. now rewrite Hy, Hm, Ht, Hs.
  - apply month_loop_length in Hrun. cbn in Hrun. lia.
Qed.

(** X2. For every baseline and every clock reading, a month range that
    [build_month_ids_from_lcu] returns is never empty and never longer
    than the cap (one entry at least, whatever the cap). *)
Theorem build_month_ids_from_lcu_bounds (fuel : nat) (now_day1 : datetime)
    (baseline : Baseline) (max_months : Z) (month_ids : list string) :
  0 <= time_of_day now_day1 ->
  build_month_ids_from_lcu fuel now_day1 baseline max_months = Some (Returned month_ids) ->
  month_ids <> [] /\ Z.of_nat (length month_ids) <= Z.max 1 max_months.
Proof.
  intros Hnow Hrun.
  pose proof (build_month_ids_from_lcu_length _ _ _ _ _ Hnow Hrun) as [Hlo Hhi].
  split; [|exact Hhi]. intros ->. cbn in Hlo. lia.
Qed.

Lemma build_month_ids_from_lcu_bounds_witness :
  0 <= time_of_day Scenarios.clock
  /\ build_month_ids_from_lcu 9 Scenarios.clock
       (Scenarios.host true (Some "2024-Feb") None) 3
     = Some (Returned ["2024-Feb"; "2024-Mar"; "2024-Apr"])
  /\ ["2024-Feb"; "2024-Mar"; "2024-Apr"] <> []
  /\ Z.of_nat (length ["2024-Feb"; "2024-Mar"; "2024-Apr"]) <= Z.max 1 3.
Proof.
  split; [vm_compute; discriminate|]. split; [reflexivity|].
  apply (build_month_ids_from_lcu_bounds 9 Scenarios.clock
           (Scenarios.host true (Some "2024-Feb") None) 3).
  - vm_compute; discriminate.
  - reflexivity.
Defined.

(** X3. The adapter queries of [main]: the month range built with the
    default cap of 48, cut into chunks of 3, gives between 1 and 16
    chunks, which together are the month range. *)
Theorem month_chunks_bounded (fuel : nat) (now_day1 : datetime)
    (baseline : Baseline) (month_ids : list string) :
  0 <= time_of_day now_day1 ->
  build_month_ids_from_lcu fuel now_day1 baseline 48 = Some (Returned month_ids) ->
  exists month_chunks,
    chunk_list month_ids 3 = Returned month_chunks
    /\ concat month_chunks = month_ids
    /\ (1 <= length month_chunks <= 16)%nat.
Proof.
  intros Hnow Hrun.
  pose proof (build_month_ids_from_lcu_length _ _ _ _ _ Hnow Hrun) as [Hlo Hhi].
  assert (H3 : 1 <= 3) by lia.
  destruct (chunk_list_spec month_ids 3 H3) as (Hchunks & Hcover & _).
  cbn zeta in *. eexists. split; [exact Hchunks|]. split.
  - rewrite concat_chunks. now apply take_ge.
  - rewrite length_fmap, length_seq.
    assert (H1 : 1 <= (Z.of_nat (length month_ids) + 3 - 1) / 3)
      by (apply Z.div_le_lower_bound; lia).
    assert (H2 : (Z.of_nat (length month_ids) + 3 - 1) / 3 < 17)
      by (apply Z.div_lt_upper_bound; lia).
    lia.
Qed.

Lemma month_chunks_bounded_witness :
  0 <= time_of_day Scenarios.clock
  /\ build_month_ids_from_lcu 9 Scenarios.clock
       (Scenarios.host true (Some "2024-Feb") None) 48
     = Some (Returned ["2024-Feb"; "2024-Mar"; "2024-Apr"; "2024-May"; "2024-Jun"])
  /\ exists month_chunks,
       chunk_list ["2024-Feb"; "2024-Mar"; "2024-Apr"; "2024-May"; "2024-Jun"] 3
       = Returned month_chunks
       /\ concat month_chunks = ["2024-Feb"; "2024-Mar"; "2024-Apr"; "2024-May"; "2024-Jun"]
       /\ (1 <= length month_chunks <= 16)%nat.
Proof.
  split; [vm_compute; discriminate|]. split; [reflexivity|].
  apply (month_chunks_bounded 9 Scenarios.clock (Scenarios.host true (Some "2024-Feb") None)).
  - vm_compute; discriminate.
  - reflexivity.
Defined.

(** ** Month identifiers round trip *)

Lemma digit_char_spec (k : Z) :
  0 <= k <= 9 -> is_digit (digit_char k) = true /\ digit_val (digit_char k) = k.
Proof.
  intros Hk.
  assert (H : k = 0 \/ k = 1 \/ k = 2 \/ k = 3 \/ k = 4 \/ k = 5 \/ k = 6 \/ k = 7
              \/ k = 8 \/ k = 9) by lia.
  repeat destruct H as [->|H]; try subst k; split; reflexivity.
Qed.

Lemma month_abbr_index (m : Z) :
  1 <= m <= 12 -> month_index month_abbr 1 (nth (Z.to_nat (m - 1)) month_abbr "") = Some m.
Proof.
  intros Hm.
  assert (H : m = 1 \/ m = 2 \/ m = 3 \/ m = 4 \/ m = 5 \/ m = 6 \/ m = 7 \/ m = 8
              \/ m = 9 \/ m = 10 \/ m = 11 \/ m = 12) by lia.
  repeat destruct H as [->|H]; try subst m; reflexivity.
Qed.

Lemma strptime_strftime (d : datetime) : parsed d -> strptime (strftime d) = Some d.
Proof.
  destruct d as [y m t]. unfold parsed. cbn [year month time_of_day].
  intros (Hy & Hm & ->). unfold strftime, strptime. cbn [year month].
  destruct (digit_char_spec (y / 1000 mod 10)) as [D1 V1];
    [pose proof (Z.mod_pos_bound (y / 1000) 10); lia|].
  destruct (digit_char_spec (y / 100 mod 10)) as [D2 V2];
    [pose proof (Z.mod_pos_bound (y / 100) 10); lia|].
  destruct (digit_char_spec (y / 10 mod 10)) as [D3 V3];
    [pose proof (Z.mod_pos_bound (y / 10) 10); lia|].
  destruct (digit_char_spec (y mod 10)) as [D4 V4];
    [pose proof (Z.mod_pos_bound y 10); lia|].
  rewrite D1, D2, D3, D4, V1, V2, V3, V4. cbn [andb Ascii.eqb Bool.eqb].
  rewrite (month_abbr_index m Hm).
  replace (1000 * (y / 1000 mod 10) + 100 * (y / 100 mod 10) + 10 * (y / 10 mod 10)
           + y mod 10) with y.
  - unfold mk_datetime.
    replace ((1 <=? y) && (y <=? 9999) && (1 <=? m) && (m <=? 12)) with true; [reflexivity|].
    symmetry. rewrite !andb_true_iff, !Z.leb_le. lia.
  - Z.to_euclidean_division_equations. lia.
Qed.

Lemma months_from_parse : forall (count : nat) (y m : Z),
  1 <= m <= 12 -> 1 <= y -> 12 * y + m + Z.of_nat count <= 12 * 9999 + 13 ->
  Forall (fun s => exists d, strptime s = Some d /\ parsed d) (months_from y m count).
Proof.
  induction count as [|count IH]; intros y m Hm Hy Hend; cbn [months_from]; [constructor|].
  constructor.
  - eexists. split; [apply strptime_strftime|]; unfold parsed; cbn; lia.
  - unfold next_month. cbn [fst snd].
    destruct (Z.eqb_spec m 12); cbn [fst snd]; apply IH; lia.
Qed.



(** ** Compliance summary *)




Lemma sorted_set_elem_of (xs : list string) (x : string) : x ∈ sorted_set xs <-> x ∈ xs.
Proof.
  unfold sorted_set. rewrite sorted_Permutation, elem_of_elements, elem_of_list_to_set.
  reflexivity.
Qed.

Lemma supersedes_normalise (kb_entries : list KbEntry) (a b : string) :
  supersedes (normalise_entry <$> kb_entries) a b <-> supersedes kb_entries a b.
Proof.
  unfold supersedes. split.
  - intros (e' & (e & -> & He)%list_elem_of_fmap & Hk & Ht & Hb).
    cbn in Hk, Hb. rewrite sorted_set_elem_of in Hb. exists e. auto.
  - intros (e & He & Hk & Ht & Hb). exists (normalise_entry e).
    split; [apply list_elem_of_fmap; eauto|]. cbn.
    rewrite sorted_set_elem_of. auto.
Qed.

Lemma tc_iff {A : Type} (R1 R2 : relation A) :
  (forall x y, R1 x y <-> R2 x y) -> forall x y, tc R1 x y <-> tc R2 x y.
Proof.
  intros H x y. split; induction 1 as [x y Hxy|x y z Hxy _ IH].
  - apply tc_once, H, Hxy.
  - eapply tc_l; [apply H, Hxy|exact IH].
  - apply tc_once, H, Hxy.
  - eapply tc_l; [apply H, Hxy|exact IH].
Qed.

Lemma expected_of_spec (kb_entries : list KbEntry) (x : string) :
  x ∈ expected_of kb_entries <-> truthy x = true /\ exists e, e ∈ kb_entries /\ KB e = x.
Proof.
  unfold expected_of. rewrite elem_of_list_to_set, list_elem_of_In, filter_In,
    <- list_elem_of_In, list_elem_of_fmap.
  split.
  - intros [(e & -> & He) Ht]. eauto.
  - intros [Ht (e & He & <-)]. eauto.
Qed.

Lemma expected_of_normalise (kb_entries : list KbEntry) :
  expected_of (normalise_entry <$> kb_entries) = expected_of kb_entries.
Proof.
  unfold expected_of. rewrite <- list_fmap_compose. reflexivity.
Qed.

Lemma filter_length_le {A : Type} (f : A -> bool) (l : list A) :
  (length (List.filter f l) <= length l)%nat.
Proof. induction l as [|x l IH]; cbn; [lia|]. destruct (f x); cbn; lia. Qed.

(** What the pure middle of [main] computes, whenever it returns. *)
Lemma resolve_compliance_spec (fuel : nat) (kb_entries : list KbEntry)
    (installed_kbs : gset string) (s : ScanSummary) :
  resolve_compliance fuel kb_entries installed_kbs = Some s ->
  (forall x, x ∈ expected_kbs s
             <-> truthy x = true /\ exists e, e ∈ kb_entries /\ KB e = x)
  /\ (forall x, x ∈ logical_present_kbs s
                <-> x ∈ installed_kbs
                    \/ exists r, r ∈ installed_kbs /\ tc (supersedes kb_entries) r x)
  /\ (forall old roots, superseded_by_roots s !! old = Some roots ->
        Sorted str_le roots /\ roots <> []
        /\ forall r, r ∈ roots <-> r ∈ installed_kbs /\ tc (supersedes kb_entries) r old)
  /\ (forall old, is_Some (superseded_by_roots s !! old)
                  <-> exists r, r ∈ installed_kbs /\ tc (supersedes kb_entries) r old)
  /\ (forall x, x ∈ missing_sorted s <-> x ∈ expected_kbs s /\ x ∉ logical_present_kbs s)
  /\ (forall x, x ∈ present_sorted s <-> x ∈ expected_kbs s /\ x ∈ logical_present_kbs s)
  /\ (Sorted str_le (missing_sorted s) /\ NoDup (missing_sorted s))
  /\ (Sorted str_le (present_sorted s) /\ NoDup (present_sorted s))
  /\ (0 <= missing_superseding s /\ 0 <= missing_standalone s
      /\ missing_superseding s + missing_standalone s
         = Z.of_nat (length (missing_sorted s))).
Proof.
  unfold resolve_compliance.
  destruct (compute_supersedence fuel _ installed_kbs) as [[lp sb]|] eqn:Hrun; [|discriminate].
  intros [= <-]. cbn [expected_kbs logical_present_kbs superseded_by_roots missing_sorted
                      present_sorted missing_superseding missing_standalone].
  apply (compute_supersedence_fuel_mono fuel
           (Nat.max fuel (fuel_bound (normalise_entry <$> kb_entries)))) in Hrun; [|lia].
  destruct (compute_supersedence_spec (normalise_entry <$> kb_entries) installed_kbs
              (Nat.max fuel (fuel_bound (normalise_entry <$> kb_entries))) ltac:(lia))
    as (lp' & sb' & Hrun' & Hl & Hb & Hd).
  rewrite Hrun in Hrun'. injection Hrun' as <- <-.
  pose proof (tc_iff _ _ (supersedes_normalise kb_entries)) as Htc.
  rewrite expected_of_normalise.
  split; [apply expected_of_spec|].
  split; [intros x; rewrite Hl; setoid_rewrite Htc; reflexivity|].
  split.
  { intros old roots Hroots. destruct (Hb old roots Hroots) as [Hs Hr].
    split; [exact Hs|]. split.
    - destruct (proj1 (Hd old) ltac:(eauto)) as (r & Hr1 & Hr2).
      intros ->. apply (not_elem_of_nil r), Hr. auto.
    - intros r. rewrite Hr. setoid_rewrite Htc. reflexivity. }
  split; [intros old; rewrite Hd; setoid_rewrite Htc; reflexivity|].
  split; [intros x; rewrite sorted_Permutation, elem_of_elements; set_solver|].
  split; [intros x; rewrite sorted_Permutation, elem_of_elements; set_solver|].
  split; [split; [apply sorted_Sorted|rewrite sorted_Permutation; apply NoDup_elements]|].
  split; [split; [apply sorted_Sorted|rewrite sorted_Permutation; apply NoDup_elements]|].
  pose proof (filter_length_le
    (fun kb => match kb_index_of (normalise_entry <$> kb_entries) !! kb with
               | Some e => String.eqb (UpdateType e) "Superseding"
               | None => false
               end) (sorted (elements (expected_of kb_entries ∖ lp)))).
  lia.
Qed.

Lemma resolve_compliance_total (fuel : nat) (kb_entries : list KbEntry)
    (installed_kbs : gset string) :
  (fuel_bound (normalise_entry <$> kb_entries) <= fuel)%nat ->
  is_Some (resolve_compliance fuel kb_entries installed_kbs).
Proof.
  intros Hfuel. unfold resolve_compliance.
  destruct (compute_supersedence_spec (normalise_entry <$> kb_entries) installed_kbs
              fuel Hfuel) as (lp & sb & -> & _). eauto.
Qed.

(** X6. The summary of [main] splits the expected identifiers: every
    expected identifier is in exactly one of the present and the missing
    list, both lists are sorted and free of duplicates, and the two
    breakdown counts are non-negative and add up to the number of missing
    identifiers.  With fuel for the loops the summary exists. *)
Theorem resolve_compliance_partition (fuel : nat) (kb_entries : list KbEntry)
    (installed_kbs : gset string) :
  ((fuel_bound (normalise_entry <$> kb_entries) <= fuel)%nat ->
   is_Some (resolve_compliance fuel kb_entries installed_kbs))
  /\ forall s, resolve_compliance fuel kb_entries installed_kbs = Some s ->
       (forall x, x ∈ expected_kbs s <-> x ∈ present_sorted s \/ x ∈ missing_sorted s)
       /\ (forall x, x ∈ present_sorted s -> x ∉ missing_sorted s)
       /\ Sorted str_le (present_sorted s) /\ NoDup (present_sorted s)
       /\ Sorted str_le (missing_sorted s) /\ NoDup (missing_sorted s)
       /\ 0 <= missing_superseding s /\ 0 <= missing_standalone s
       /\ missing_superseding s + missing_standalone s
          = Z.of_nat (length (missing_sorted s)).
Proof.
  split; [apply resolve_compliance_total|].
  intros s Hs.
  destruct (resolve_compliance_spec _ _ _ _ Hs)
    as (_ & _ & _ & _ & Hm & Hp & [Sm Nm] & [Sp Np] & C1 & C2 & C3).
  repeat split; try assumption.
  - intros Hx. destruct (decide (x ∈ logical_present_kbs s)).
    + left. apply Hp. auto.
    + right. apply Hm. auto.
  - intros [Hx%Hp|Hx%Hm]; tauto.
  - intros x Hx%Hp Hx'%Hm. tauto.
Qed.

Lemma resolve_compliance_partition_witness :
  (fuel_bound (normalise_entry <$> Scenarios.chain) <= 5)%nat
  /\ exists s, resolve_compliance 5 Scenarios.chain {["KB5029351"]} = Some s
               /\ present_sorted s = ["KB5029351"]
               /\ missing_sorted s = ["KB5031354"]
               /\ (forall x, x ∈ present_sorted s -> x ∉ missing_sorted s).
Proof.
  split; [vm_compute; lia|].
  destruct (resolve_compliance 5 Scenarios.chain {["KB5029351"]}) as [s|] eqn:E;
    [|vm_compute in E; discriminate].
  exists s. split; [reflexivity|].
  split; [vm_compute in E; injection E as <-; reflexivity|].
  split; [vm_compute in E; injection E as <-; reflexivity|].
  apply (resolve_compliance_partition 5 Scenarios.chain {["KB5029351"]}), E.
Defined.

(** X7. An identifier is reported missing exactly when a bulletin record
    names it (with a non-empty KB), it is not installed, and no installed
    identifier supersedes it, directly or through other records.  An
    installed identifier is never reported missing. *)
Theorem missing_exactly (fuel : nat) (kb_entries : list KbEntry)
    (installed_kbs : gset string) (s : ScanSummary) :
  resolve_compliance fuel kb_entries installed_kbs = Some s ->
  forall x,
    x ∈ missing_sorted s
    <-> truthy x = true /\ (exists e, e ∈ kb_entries /\ KB e = x)
        /\ (x ∉ installed_kbs)
        /\ ~ (exists root, root ∈ installed_kbs /\ tc (supersedes kb_entries) root x).
Proof.
  intros Hs x.
  destruct (resolve_compliance_spec _ _ _ _ Hs) as (He & Hl & _ & _ & Hm & _).
  rewrite Hm, He, Hl. tauto.
Qed.

Lemma missing_exactly_witness :
  exists s, resolve_compliance 5 Scenarios.chain {["KB5029351"]} = Some s
            /\ ("KB5031354" ∈ missing_sorted s
                <-> truthy "KB5031354" = true
                    /\ (exists e, e ∈ Scenarios.chain /\ KB e = "KB5031354")
                    /\ ("KB5031354" ∉ ({["KB5029351"]} : gset string))
                    /\ ~ (exists root, root ∈ ({["KB5029351"]} : gset string)
                                       /\ tc (supersedes Scenarios.chain) root "KB5031354")).
Proof.
  destruct (resolve_compliance 5 Scenarios.chain {["KB5029351"]}) as [s|] eqn:E;
    [|vm_compute in E; discriminate].
  exists s. split; [reflexivity|].
  apply (missing_exactly 5 Scenarios.chain {["KB5029351"]} s E).
Defined.

(** X8. Installing more never makes more missing: with the same bulletin
    records and a larger installed set, the logically-present set grows
    and every identifier still missing was missing before. *)
Theorem more_installed_less_missing (fuel fuel' : nat) (kb_entries : list KbEntry)
    (installed_kbs installed_kbs' : gset string) (s s' : ScanSummary) :
  installed_kbs ⊆ installed_kbs' ->
  resolve_compliance fuel kb_entries installed_kbs = Some s ->
  resolve_compliance fuel' kb_entries installed_kbs' = Some s' ->
  logical_present_kbs s ⊆ logical_present_kbs s'
  /\ forall x, x ∈ missing_sorted s' -> x ∈ missing_sorted s.
Proof.
  intros Hsub Hs Hs'.
  destruct (resolve_compliance_spec _ _ _ _ Hs) as (He & Hl & _ & _ & Hm & _).
  destruct (resolve_compliance_spec _ _ _ _ Hs') as (He' & Hl' & _ & _ & Hm' & _).
  assert (Hlp : logical_present_kbs s ⊆ logical_present_kbs s').
  { intros x [Hx|(r & Hr & Hx)]%Hl; apply Hl'; [left|right; exists r]; auto. }
  split; [exact Hlp|].
  intros x [Hx Hn]%Hm'. apply Hm. split.
  - apply He. now apply He'.
  - intros Hin. apply Hn, Hlp, Hin.
Qed.

Lemma more_installed_less_missing_witness :
  ({["KB5029351"]} : gset string) ⊆ {["KB5029351"; "KB5031354"]}
  /\ exists s s',
       resolve_compliance 5 Scenarios.chain {["KB5029351"]} = Some s
       /\ resolve_compliance 5 Scenarios.chain {["KB5029351"; "KB5031354"]} = Some s'
       /\ logical_present_kbs s ⊆ logical_present_kbs s'.
Proof.
  assert (Hsub : ({["KB5029351"]} : gset string) ⊆ {["KB5029351"; "KB5031354"]})
    by set_solver.
  split; [exact Hsub|].
  destruct (resolve_compliance 5 Scenarios.chain {["KB5029351"]}) as [s|] eqn:E;
    [|vm_compute in E; discriminate].
  destruct (resolve_compliance 5 Scenarios.chain {["KB5029351"; "KB5031354"]})
    as [s'|] eqn:E'; [|vm_compute in E'; discriminate].
  exists s, s'. split; [reflexivity|]. split; [reflexivity|].
  apply (more_installed_less_missing 5 5 Scenarios.chain _ _ s s' Hsub E E').
Defined.

Lemma resolve_compliance_lists (fuel : nat) (kb_entries : list KbEntry)
    (installed_kbs : gset string) (s : ScanSummary) :
  resolve_compliance fuel kb_entries installed_kbs = Some s ->
  expected_kbs s = expected_of kb_entries
  /\ missing_sorted s = sorted (elements (expected_kbs s ∖ logical_present_kbs s))
  /\ present_sorted s = sorted (elements (expected_kbs s ∩ logical_present_kbs s)).
Proof.
  unfold resolve_compliance.
  destruct (compute_supersedence fuel _ installed_kbs) as [[lp sb]|]; [|discriminate].
  intros [= <-]. cbn. rewrite expected_of_normalise. auto.
Qed.

(** X9. The logically-present set is closed under the supersedes relation,
    so resolving again with it as the installed set changes nothing: the
    same logically-present set and the same present and missing lists. *)
Theorem resolve_compliance_closed (fuel fuel' : nat) (kb_entries : list KbEntry)
    (installed_kbs : gset string) (s s' : ScanSummary) :
  resolve_compliance fuel kb_entries installed_kbs = Some s ->
  (forall x y, x ∈ logical_present_kbs s -> supersedes kb_entries x y ->
               y ∈ logical_present_kbs s)
  /\ (resolve_compliance fuel' kb_entries (logical_present_kbs s) = Some s' ->
      logical_present_kbs s' = logical_present_kbs s
      /\ missing_sorted s' = missing_sorted s
      /\ present_sorted s' = present_sorted s).
Proof.
  intros Hs.
  destruct (resolve_compliance_spec _ _ _ _ Hs) as (_ & Hl & _).
  assert (Hclosed : forall x y, x ∈ logical_present_kbs s ->
            tc (supersedes kb_entries) x y -> y ∈ logical_present_kbs s).
  { intros x y [Hx|(r & Hr & Hx)]%Hl Hxy; apply Hl; right.
    - exists x. auto.
    - exists r. split; [assumption|]. now apply tc_trans with x. }
  split; [intros x y Hx Hxy; apply (Hclosed x y Hx); now apply tc_once|].
  intros Hs'.
  destruct (resolve_compliance_spec _ _ _ _ Hs') as (_ & Hl' & _).
  assert (E : logical_present_kbs s' = logical_present_kbs s).
  { apply set_eq. intros x. rewrite Hl'. split.
    - intros [Hx|(r & Hr & Hx)]; [assumption|now apply (Hclosed r)].
    - auto. }
  destruct (resolve_compliance_lists _ _ _ _ Hs) as (X & M & P).
  destruct (resolve_compliance_lists _ _ _ _ Hs') as (X' & M' & P').
  rewrite M, M', P, P', X, X', E. auto.
Qed.

Lemma resolve_compliance_closed_witness :
  exists s, resolve_compliance 7 Scenarios.cyclic {["KB3"]} = Some s
            /\ (forall x y, x ∈ logical_present_kbs s -> supersedes Scenarios.cyclic x y ->
                            y ∈ logical_present_kbs s).
Proof.
  destruct (resolve_compliance 7 Scenarios.cyclic {["KB3"]}) as [s|] eqn:E;
    [|vm_compute in E; discriminate].
  exists s. split; [reflexivity|].
  apply (resolve_compliance_closed 7 7 Scenarios.cyclic {["KB3"]} s s E).
Defined.

(** X10. The status column of the table agrees with the resolution: it
    reads "Installed" exactly for installed identifiers and "Missing"
    exactly for identifiers that are not logically present (for an
    expected identifier: exactly those of the missing list); in between it
    reads "Superseded (...)" with the sorted, non-empty list of the
    installed identifiers that supersede it, never a bare "Superseded". *)
Theorem kb_status_agrees (fuel : nat) (kb_entries : list KbEntry)
    (installed_kbs : gset string) (s : ScanSummary) (x : string) :
  resolve_compliance fuel kb_entries installed_kbs = Some s ->
  let status :=
    kb_status installed_kbs (logical_present_kbs s) (superseded_by_roots s) x in
  (status = "Installed" <-> x ∈ installed_kbs)
  /\ (status = "Missing" <-> x ∉ logical_present_kbs s)
  /\ (x ∈ expected_kbs s -> (status = "Missing" <-> x ∈ missing_sorted s))
  /\ status <> "Superseded"
  /\ (x ∉ installed_kbs -> x ∈ logical_present_kbs s ->
      exists roots,
        superseded_by_roots s !! x = Some roots /\ roots <> []
        /\ status = "Superseded (" ++ join ", " roots ++ ")"
        /\ Sorted str_le roots
        /\ forall r, r ∈ roots
                     <-> r ∈ installed_kbs /\ tc (supersedes kb_entries) r x).
Proof.
  intros Hs status.
  destruct (resolve_compliance_spec _ _ _ _ Hs) as (_ & Hl & Hb & Hd & Hm & _).
  assert (Hinst : x ∈ installed_kbs -> x ∈ logical_present_kbs s)
    by (intros; apply Hl; auto).
  assert (Hsup : x ∉ installed_kbs -> x ∈ logical_present_kbs s ->
                 exists r by_, superseded_by_roots s !! x = Some (r :: by_)).
  { intros Hn [?|Hr]%Hl; [contradiction|]. apply Hd in Hr as [roots Hroots].
    destruct (Hb _ _ Hroots) as (_ & Hne & _).
    destruct roots as [|r by_]; [contradiction|]. eauto. }
  unfold status, kb_status.
  destruct (decide (x ∈ installed_kbs)) as [Hi|Hi];
    [|destruct (decide (x ∈ logical_present_kbs s)) as [Hp|Hp]].
  - split; [tauto|]. split; [split; [discriminate|intros Hn; exfalso; auto]|].
    split; [intros _; split; [discriminate|intros [_ Hn]%Hm; exfalso; auto]|].
    split; [discriminate|]. intros Hn. contradiction.
  - destruct (Hsup Hi Hp) as (r & by_ & Hroots). rewrite Hroots.
    destruct (Hb _ _ Hroots) as (Hsorted & Hne & Hiff).
    split; [split; [cbn; discriminate|contradiction]|].
    split; [split; [cbn; discriminate|contradiction]|].
    split; [intros _; split; [cbn; discriminate|intros [_ Hn]%Hm; contradiction]|].
    split; [cbn; discriminate|].
    intros _ _. exists (r :: by_). auto.
  - split; [split; [discriminate|contradiction]|].
    split; [tauto|].
    split; [intros Hx; split; [intros _; apply Hm; auto|reflexivity]|].
    split; [discriminate|]. intros _ Hn. contradiction.
Qed.

Lemma kb_status_agrees_witness :
  exists s, resolve_compliance 5 Scenarios.chain {["KB5031354"]} = Some s
            /\ kb_status {["KB5031354"]} (logical_present_kbs s) (superseded_by_roots s)
                 "KB5026372"
               = "Superseded (KB5031354)"
            /\ (("KB5026372" ∉ ({["KB5031354"]} : gset string)) ->
                "KB5026372" ∈ logical_present_kbs s ->
                exists roots,
                  superseded_by_roots s !! "KB5026372" = Some roots /\ roots <> []).
Proof.
  destruct (resolve_compliance 5 Scenarios.chain {["KB5031354"]}) as [s|] eqn:E;
    [|vm_compute in E; discriminate].
  exists s. split; [reflexivity|].
  split; [vm_compute in E; injection E as <-; vm_compute; reflexivity|].
  intros Hn Hp.
  destruct (proj2 (proj2 (proj2 (proj2
              (kb_status_agrees 5 Scenarios.chain {["KB5031354"]} s "KB5026372" E))))
              Hn Hp) as (roots & Hr & Hne & _).
  exists roots. auto.
Defined.

(** ** More on the merge *)

Lemma foldl_append_new_prefix (xs target : list string) :
  target `prefix_of` foldl append_new target xs.
Proof.
  revert target. induction xs as [|x xs IH]; intros target; cbn; [reflexivity|].
  etransitivity; [|apply IH]. unfold append_new.
  destruct (truthy x && negb (str_mem x target)); [now apply prefix_app_r|reflexivity].
Qed.

Lemma foldl_append_new_NoDup (xs target : list string) :
  NoDup target -> NoDup (foldl append_new target xs).
Proof.
  revert target. induction xs as [|x xs IH]; intros target Hnd; cbn; [assumption|].
  apply IH. unfold append_new.
  destruct (truthy x) eqn:Ht, (str_mem x target) eqn:Hm; cbn; try assumption.
  apply NoDup_app. repeat split; [assumption| |apply NoDup_singleton].
  intros y Hy ->%list_elem_of_singleton.
  apply str_mem_elem_of in Hy. congruence.
Qed.

Lemma merge_entry_lookup (index : gmap string KbEntry) (e : KbEntry) (k : string) :
  (is_Some (merge_entry index e !! k)
   <-> is_Some (index !! k) \/ (KB e = k /\ truthy k = true))
  /\ (forall r r', index !! k = Some r -> merge_entry index e !! k = Some r' ->
        KB r' = KB r /\ UpdateType r' = UpdateType r)
  /\ (forall r', index !! k = None -> merge_entry index e !! k = Some r' ->
        KB r' = k /\ UpdateType r' = "")
  /\ (forall f, list_field f ->
        field_at f index k `prefix_of` field_at f (merge_entry index e) k
        /\ (NoDup (field_at f index k) -> NoDup (field_at f (merge_entry index e) k))
        /\ forall x, x ∈ field_at f (merge_entry index e) k
                     <-> x ∈ field_at f index k
                         \/ (KB e = k /\ truthy k = true /\ x ∈ f e /\ truthy x = true)).
Proof.
  unfold merge_entry, field_at.
  destruct (truthy (KB e)) eqn:Ht; cbn [negb].
  2:{ split; [|split; [|split]].
      - split; [auto|]. intros [?|[<- ?]]; [assumption|congruence].
      - intros r r' -> [= <-]. auto.
      - intros r' -> [=].
      - intros f _. split; [reflexivity|]. split; [auto|].
        intros x. split; [auto|]. intros [?|(<- & ? & _)]; [assumption|congruence]. }
  destruct (decide (KB e = k)) as [<-|Hne].
  - rewrite lookup_insert_eq. split; [|split; [|split]].
    + split; eauto.
    + intros r r' -> [= <-]. auto.
    + intros r' -> [= <-]. auto.
    + intros f [->|[->| ->]]; cbn; destruct (index !! KB e) as [r|]; cbn;
        (split; [apply foldl_append_new_prefix|];
         split; [apply foldl_append_new_NoDup|];
         intros x; rewrite foldl_append_new_elem_of; tauto).
  - rewrite lookup_insert_ne by assumption. split; [|split; [|split]].
    + split; [auto|]. intros [?|[? _]]; [assumption|contradiction].
    + intros r r' -> [= <-]. auto.
    + intros r' -> [=].
    + intros f _. split; [reflexivity|]. split; [auto|].
      intros x. split; [auto|]. intros [?|(? & _)]; [assumption|contradiction].
Qed.

(** What a merge leaves under each key. *)
Lemma merge_kb_entries_lookup (incoming : list KbEntry) :
  forall (index : gmap string KbEntry) (k : string),
  (is_Some (merge_kb_entries index incoming !! k)
   <-> is_Some (index !! k) \/ (truthy k = true /\ exists e, e ∈ incoming /\ KB e = k))
  /\ (forall r r', index !! k = Some r -> merge_kb_entries index incoming !! k = Some r' ->
        KB r' = KB r /\ UpdateType r' = UpdateType r)
  /\ (forall r', index !! k = None -> merge_kb_entries index incoming !! k = Some r' ->
        KB r' = k /\ UpdateType r' = "")
  /\ (forall f, list_field f ->
        field_at f index k `prefix_of` field_at f (merge_kb_entries index incoming) k
        /\ (NoDup (field_at f index k) ->
            NoDup (field_at f (merge_kb_entries index incoming) k))
        /\ forall x, x ∈ field_at f (merge_kb_entries index incoming) k
                     <-> x ∈ field_at f index k
                         \/ (truthy k = true /\ truthy x = true
                             /\ exists e, e ∈ incoming /\ KB e = k /\ x ∈ f e)).
Proof.
  unfold merge_kb_entries.
  induction incoming as [|e l IH]; intros index k; cbn [foldl].
  - split; [|split; [|split]].
    + split; [auto|]. intros [?|(_ & e & []%elem_of_nil & _)]; assumption.
    + intros r r' -> [= <-]. auto.
    + intros r' -> [=].
    + intros f _. split; [reflexivity|]. split; [auto|]. intros x. split; [auto|].
      intros [?|(_ & _ & e & []%elem_of_nil & _)]; assumption.
  - destruct (IH (merge_entry index e) k) as (I1 & I2 & I3 & I4).
    destruct (merge_entry_lookup index e k) as (E1 & E2 & E3 & E4).
    split; [|split; [|split]].
    + rewrite I1, E1. split.
      * intros [[?|[<- ?]]|(? & e' & ? & ?)]; [auto| |].
        -- right. split; [assumption|]. exists e. split; [left|reflexivity].
        -- right. split; [assumption|]. exists e'. split; [now right|assumption].
      * intros [?|(? & e' & [->|?]%elem_of_cons & ?)]; [auto|auto|].
        right. split; [assumption|]. eauto.
    + intros r r' Hr Hr'.
      assert (Hs : is_Some (merge_entry index e !! k)) by (apply E1; eauto).
      destruct Hs as [r1 Hr1]. destruct (E2 r r1 Hr Hr1) as [Ek Eu].
      destruct (I2 r1 r' Hr1 Hr') as [-> ->]. auto.
    + intros r' Hn Hr'.
      destruct (merge_entry index e !! k) as [r1|] eqn:Hr1.
      * destruct (E3 r1 Hn eq_refl) as [Ek Eu].
        destruct (I2 r1 r' eq_refl Hr') as [-> ->]. auto.
      * now apply I3.
    + intros f Hf. destruct (I4 f Hf) as (P & N & M). destruct (E4 f Hf) as (P' & N' & M').
      split; [etransitivity; eassumption|]. split; [auto|].
      intros x. rewrite M, M'. split.
      * intros [[?|(<- & ? & ? & ?)]|(? & ? & e' & ? & ? & ?)]; [auto| |].
        -- right. split; [assumption|]. split; [assumption|].
           exists e. split; [left|auto].
        -- right. split; [assumption|]. split; [assumption|].
           exists e'. split; [now right|auto].
      * intros [?|(? & ? & e' & [->|?]%elem_of_cons & ? & ?)];
          [auto|left; right; auto|].
        right. split; [assumption|]. split; [assumption|]. eauto.
Qed.

(** X11. A merge deletes nothing: a record of the index is still there
    afterwards, under the same key, with its KB and UpdateType unchanged and
    with its Months, Cves and Supersedes lists as prefixes of the merged
    ones. *)
Theorem merge_kb_entries_keeps (index : gmap string KbEntry) (incoming : list KbEntry)
    (k : string) (r : KbEntry) :
  index !! k = Some r ->
  exists r', merge_kb_entries index incoming !! k = Some r'
    /\ KB r' = KB r /\ UpdateType r' = UpdateType r
    /\ Months r `prefix_of` Months r'
    /\ Cves r `prefix_of` Cves r'
    /\ Supersedes r `prefix_of` Supersedes r'.
Proof.
  intros Hr.
  destruct (merge_kb_entries_lookup incoming index k) as (H1 & H2 & _ & H4).
  destruct (proj2 H1 (or_introl (mk_is_Some _ _ Hr))) as [r' Hr'].
  exists r'. split; [exact Hr'|].
  destruct (H2 r r' Hr Hr') as [-> ->]. split; [reflexivity|]. split; [reflexivity|].
  unfold field_at in H4. rewrite Hr, Hr' in H4.
  split; [apply (H4 Months); left; reflexivity|].
  split; [apply (H4 Cves); right; left; reflexivity|].
  apply (H4 Supersedes); right; right; reflexivity.
Qed.

Lemma merge_kb_entries_keeps_witness :
  let index := merge_kb_entries ∅ [Scenarios.bulletin "KB5031354" ["KB5029351"]] in
  exists r r',
    index !! "KB5031354" = Some r
    /\ merge_kb_entries index Scenarios.chain !! "KB5031354" = Some r'
    /\ Months r `prefix_of` Months r'.
Proof.
  intros index.
  destruct (index !! "KB5031354") as [r|] eqn:E; [|vm_compute in E; discriminate].
  destruct (merge_kb_entries_keeps index Scenarios.chain "KB5031354" r E)
    as (r' & Hr' & _ & _ & Hm & _).
  exists r, r'. auto.
Defined.

(** X12. A merge is a union per key.  The merged index has a record under
    [k] exactly when the index had one or an incoming entry carries the
    non-empty KB [k]; and a value is in the merged Months (Cves,
    Supersedes) list of [k] exactly when it was there before or it is a
    non-empty value of that list in an incoming entry with KB [k]. *)
Theorem merge_kb_entries_union (index : gmap string KbEntry) (incoming : list KbEntry)
    (k : string) :
  (is_Some (merge_kb_entries index incoming !! k)
   <-> is_Some (index !! k) \/ (truthy k = true /\ exists e, e ∈ incoming /\ KB e = k))
  /\ forall f, list_field f ->
       forall x, x ∈ field_at f (merge_kb_entries index incoming) k
                 <-> x ∈ field_at f index k
                     \/ (truthy k = true /\ truthy x = true
                         /\ exists e, e ∈ incoming /\ KB e = k /\ x ∈ f e).
Proof.
  destruct (merge_kb_entries_lookup incoming index k) as (H1 & _ & _ & H4).
  split; [exact H1|]. intros f Hf. apply (H4 f Hf).
Qed.

(** X13. Merging keeps an index well formed, and the empty index is: so
    in every index that [main] builds each record sits under its own
    non-empty KB and no Months, Cves or Supersedes list holds a value
    twice or an empty value. *)
Theorem merge_kb_entries_wf (index : gmap string KbEntry) (incoming : list KbEntry) :
  wf_index ∅
  /\ (wf_index index -> wf_index (merge_kb_entries index incoming)).
Proof.
  split; [intros k r Hr; rewrite lookup_empty in Hr; discriminate|].
  intros Hwf k r' Hr'.
  destruct (merge_kb_entries_lookup incoming index k) as (H1 & H2 & H3 & H4).
  destruct (index !! k) as [r|] eqn:Hr.
  - destruct (Hwf k r Hr) as (Hk & Ht & Hf). destruct (H2 r r' eq_refl Hr') as [Ek _].
    split; [congruence|]. split; [assumption|].
    intros f Hlf. destruct (H4 f Hlf) as (_ & N & M). destruct (Hf f Hlf) as [Nr Tr].
    unfold field_at in N, M. rewrite Hr, Hr' in N, M. split; [auto|].
    intros x Hx. apply M in Hx as [Hx|(_ & Hx & _)]; auto.
  - destruct (H3 r' eq_refl Hr') as [Ek _].
    destruct (proj1 H1 (mk_is_Some _ _ Hr')) as [[? [=]]|[Ht _]].
    split; [assumption|]. split; [assumption|].
    intros f Hlf. destruct (H4 f Hlf) as (_ & N & M).
    unfold field_at in N, M. rewrite Hr, Hr' in N, M. split; [apply N; constructor|].
    intros x Hx. apply M in Hx as [[]%elem_of_nil|(_ & Hx & _)]; auto.
Qed.

Lemma merge_kb_entries_wf_witness :
  wf_index ∅ /\ wf_index (merge_kb_entries ∅ Scenarios.cyclic).
Proof.
  split.
  - exact (proj1 (merge_kb_entries_wf ∅ Scenarios.cyclic)).
  - apply (proj2 (merge_kb_entries_wf ∅ Scenarios.cyclic)).
    exact (proj1 (merge_kb_entries_wf ∅ Scenarios.cyclic)).
Defined.

Lemma sorted_set_ext (xs ys : list string) :
  (forall x, x ∈ xs <-> x ∈ ys) -> sorted_set xs = sorted_set ys.
Proof.
  intros H. unfold sorted_set. f_equal. f_equal. apply set_eq. intros x.
  rewrite !elem_of_list_to_set. apply H.
Qed.

(** X14. The order of the incoming records does not matter once the index
    is normalised: merging a permutation of the records gives the same
    normalised index. *)
Theorem merge_kb_entries_order (index : gmap string KbEntry)
    (incoming incoming' : list KbEntry) :
  incoming ≡ₚ incoming' ->
  normalise_index (merge_kb_entries index incoming)
  = normalise_index (merge_kb_entries index incoming').
Proof.
  intros Hperm. apply map_eq. intros k. unfold normalise_index. rewrite !lookup_fmap.
  destruct (merge_kb_entries_lookup incoming index k) as (H1 & H2 & H3 & H4).
  destruct (merge_kb_entries_lookup incoming' index k) as (H1' & H2' & H3' & H4').
  assert (Hin : forall e, e ∈ incoming <-> e ∈ incoming') by (intros e; now rewrite Hperm).
  destruct (merge_kb_entries index incoming !! k) as [r1|] eqn:E1,
           (merge_kb_entries index incoming' !! k) as [r2|] eqn:E2; cbn.
  - f_equal.
    assert (Hk : KB r1 = KB r2).
    { destruct (index !! k) as [r|] eqn:Hr.
      - destruct (H2 r r1 eq_refl eq_refl), (H2' r r2 eq_refl eq_refl). congruence.
      - destruct (H3 r1 eq_refl eq_refl), (H3' r2 eq_refl eq_refl). congruence. }
    assert (Hf : forall f, list_field f -> sorted_set (f r1) = sorted_set (f r2)).
    { intros f Hlf. apply sorted_set_ext. intros x.
      destruct (H4 f Hlf) as (_ & _ & M). destruct (H4' f Hlf) as (_ & _ & M').
      unfold field_at in M, M'. rewrite E1 in M. rewrite E2 in M'.
      rewrite M, M'. setoid_rewrite Hin. reflexivity. }
    unfold normalise_entry.
    rewrite Hk, (Hf Months), (Hf Cves), (Hf Supersedes); unfold list_field; auto.
  - exfalso. assert (Hs : is_Some (Some r1)) by eauto.
    apply H1 in Hs. setoid_rewrite Hin in Hs. apply H1' in Hs. destruct Hs. discriminate.
  - exfalso. assert (Hs : is_Some (Some r2)) by eauto.
    apply H1' in Hs. setoid_rewrite <- Hin in Hs. apply H1 in Hs. destruct Hs. discriminate.
  - reflexivity.
Qed.

Lemma merge_kb_entries_order_witness :
  Scenarios.cyclic ≡ₚ rev Scenarios.cyclic
  /\ normalise_index (merge_kb_entries ∅ Scenarios.cyclic)
     = normalise_index (merge_kb_entries ∅ (rev Scenarios.cyclic)).
Proof.
  assert (H : Scenarios.cyclic ≡ₚ rev Scenarios.cyclic) by apply Permutation_rev.
  split; [exact H|]. exact (merge_kb_entries_order ∅ _ _ H).
Defined.

Section DownloaderMore.
Import PyStr Downloader.

(** X15. A candidate with a negative score has no part in the selection:
    with it or without it in the list, [choose_best_candidate] returns the
    same. *)
Theorem rejected_candidate_ignored (before after : list CatalogCandidate)
    (cand : CatalogCandidate) (kb_id : string) (constraints : BaselineConstraints) :
  score_candidate cand kb_id constraints < 0 ->
  choose_best_candidate (before ++ cand :: after) kb_id constraints
  = choose_best_candidate (before ++ after) kb_id constraints.
Proof.
  intros Hneg. unfold choose_best_candidate. rewrite !scored_loop.
  rewrite !List.filter_app. cbn [List.filter].
  replace (0 <=? score_candidate cand kb_id constraints) with false; [reflexivity|].
  symmetry. apply Z.leb_gt. exact Hneg.
Qed.

Lemma rejected_candidate_ignored_witness :
  score_candidate (Scenarios.candidate Scenarios.title_arm64) "KB5031354"
    Scenarios.win11_x64 < 0
  /\ choose_best_candidate
       [Scenarios.candidate Scenarios.title_85;
        Scenarios.candidate Scenarios.title_arm64;
        Scenarios.candidate Scenarios.title_x64] "KB5031354" Scenarios.win11_x64
     = choose_best_candidate
         [Scenarios.candidate Scenarios.title_85;
          Scenarios.candidate Scenarios.title_x64] "KB5031354" Scenarios.win11_x64.
Proof.
  assert (H : score_candidate (Scenarios.candidate Scenarios.title_arm64) "KB5031354"
                Scenarios.win11_x64 < 0) by (vm_compute; reflexivity).
  split; [exact H|].
  exact (rejected_candidate_ignored [Scenarios.candidate Scenarios.title_85]
           [Scenarios.candidate Scenarios.title_x64] _ _ _ H).
Defined.

Ltac branches :=
  repeat match goal with
         | |- context [if ?b then _ else _] => destruct b
         | |- context [match ?o with Some _ => _ | None => _ end] => destruct o
         end.

(** X16. A client host is never offered a server or a cross-generation
    package.  When the baseline's OsName names Windows 11 or Windows 10
    (in any case; Windows 11 wins when both occur), every candidate whose
    title mentions "server", and every candidate whose title names the
    other generation, gets the hard-reject score. *)
Theorem client_host_rejections (baseline : Baseline) (candidate : CatalogCandidate)
    (kb_id : string) :
  let os_lower := lower (str_or_empty (OsName baseline)) in
  let t := lower (title candidate) in
  let c := build_constraints baseline in
  (str_in "windows 11" os_lower = true \/ str_in "windows 10" os_lower = true ->
   str_in "server" t = true -> score_candidate candidate kb_id c = -10000)
  /\ (str_in "windows 11" os_lower = true ->
      str_in "windows 10" t = true -> score_candidate candidate kb_id c = -10000)
  /\ (str_in "windows 11" os_lower = false -> str_in "windows 10" os_lower = true ->
      str_in "windows 11" t = true -> score_candidate candidate kb_id c = -10000).
Proof.
  intros os_lower t c.
  assert (Hgen : windows_gen c
                 = if str_in "windows 11" os_lower then "windows 11"
                   else if str_in "windows 10" os_lower then "windows 10" else "")
    by reflexivity.
  repeat split.
  - intros Hos Hserver. unfold score_candidate. fold t. rewrite Hgen.
    destruct (str_in "windows 11" os_lower), (str_in "windows 10" os_lower);
      try (destruct Hos; discriminate);
      cbn [truthy startswith String.eqb String.prefix Ascii.eqb Bool.eqb negb
           andb orb ascii_dec ascii_rec ascii_rect sumbool_rec sumbool_rect
           Bool.bool_dec bool_rec bool_rect];
      rewrite Hserver; branches; reflexivity.
  - intros Hos Hten. unfold score_candidate. fold t. rewrite Hgen, Hos.
    cbn [truthy String.eqb Ascii.eqb Bool.eqb negb andb].
    rewrite Hten. branches; reflexivity.
  - intros Hno Hos Heleven. unfold score_candidate. fold t. rewrite Hgen, Hno, Hos.
    cbn [truthy String.eqb Ascii.eqb Bool.eqb negb andb].
    rewrite Heleven. branches; reflexivity.
Qed.

Lemma client_host_rejections_witness :
  str_in "windows 11" (lower (str_or_empty (OsName (Scenarios.host true None None)))) = true
  /\ str_in "server"
       (lower (title (Scenarios.candidate
                        "Cumulative Update for Microsoft server operating system (KB5031354)")))
     = true
  /\ score_candidate
       (Scenarios.candidate
          "Cumulative Update for Microsoft server operating system (KB5031354)")
       "KB5031354" (build_constraints (Scenarios.host true None None)) = -10000.
Proof.
  split; [reflexivity|]. split; [reflexivity|].
  apply (proj1 (client_host_rejections (Scenarios.host true None None)
                  (Scenarios.candidate
                     "Cumulative Update for Microsoft server operating system (KB5031354)")
                  "KB5031354")).
  - left. reflexivity.
  - reflexivity.
Defined.

End DownloaderMore.

Section DownloaderMainFacts.
Import PyStr DownloaderMain.

Lemma upper_index_lookup (kb_entries : list KbEntry) (k : string) (entry : KbEntry) :
  upper_index kb_entries !! k = Some entry ->
  entry ∈ kb_entries /\ truthy (KB entry) = true /\ upper (KB entry) = k.
Proof.
  unfold upper_index.
  assert (G : forall m : gmap string KbEntry,
    foldl (fun m entry => if truthy (KB entry) then <[upper (KB entry) := entry]> m else m)
          m kb_entries !! k = Some entry ->
    m !! k = Some entry
    \/ (entry ∈ kb_entries /\ truthy (KB entry) = true /\ upper (KB entry) = k)).
  { induction kb_entries as [|e l IH]; intros m; cbn [foldl]; [auto|].
    intros [H|(? & ? & ?)]%IH; [|right; split; [now right|auto]].
    destruct (truthy (KB e)) eqn:Ht; [|auto].
    destruct (decide (upper (KB e) = k)) as [<-|Hne].
    - rewrite lookup_insert_eq in H. injection H as <-. right. split; [left|auto].
    - rewrite lookup_insert_ne in H by assumption. auto. }
  intros [H|H]%G; [rewrite lookup_empty in H; discriminate|exact H].
Qed.

Lemma build_missing_list_loop (kb_index : gmap string KbEntry) (missing_kbs : list string)
    (out : list MissingKbItem) :
  foldl (fun out kb =>
           let kb_str := upper (strip kb) in
           if negb (truthy kb_str) then out
           else
             let update_type :=
               match kb_index !! kb_str with
               | Some entry =>
                   if truthy (UpdateType entry) then UpdateType entry else "Unknown"
               | None => "Unknown"
               end in
             (out ++ [{| kb_id := kb_str; update_type := update_type |}])%list)
        out missing_kbs
  = (out ++ ((fun kb_str =>
               {| kb_id := kb_str;
                  update_type :=
                    match kb_index !! kb_str with
                    | Some entry =>
                        if truthy (UpdateType entry) then UpdateType entry else "Unknown"
                    | None => "Unknown"
                    end |})
            <$> List.filter truthy ((fun kb => upper (strip kb)) <$> missing_kbs)))%list.
Proof.
  revert out. induction missing_kbs as [|kb l IH]; intros out; cbn.
  - now rewrite app_nil_r.
  - rewrite IH. destruct (truthy (upper (strip kb))); cbn; [|reflexivity].
    now rewrite <- app_assoc.
Qed.

Lemma build_missing_list_spec (scan_result : ScanResult) :
  kb_id <$> build_missing_list scan_result
  = List.filter truthy ((fun kb => upper (strip kb)) <$> MissingKbs scan_result)
  /\ forall item, item ∈ build_missing_list scan_result ->
       truthy (kb_id item) = true /\ truthy (update_type item) = true
       /\ (update_type item = "Unknown"
           \/ exists entry, entry ∈ KbEntries scan_result /\ truthy (KB entry) = true
                            /\ upper (KB entry) = kb_id item
                            /\ UpdateType entry = update_type item).
Proof.
  unfold build_missing_list. rewrite build_missing_list_loop. cbn [app]. split.
  - rewrite <- list_fmap_compose. cbn. apply list_fmap_id.
  - intros item (k & -> & Hk)%list_elem_of_fmap. cbn [kb_id update_type].
    apply list_elem_of_In, filter_In in Hk as [_ Ht]. split; [exact Ht|].
    destruct (upper_index (KbEntries scan_result) !! k) as [entry|] eqn:E;
      [|split; [reflexivity|now left]].
    destruct (truthy (UpdateType entry)) eqn:Hu; [|split; [reflexivity|now left]].
    split; [exact Hu|]. right. exists entry.
    apply upper_index_lookup in E as (? & ? & ?). auto.
Qed.

(** X17. The missing list of the downloader keeps the order of the scan
    result: its identifiers are the stripped, upper-cased MissingKbs with
    the blank ones left out.  No item has an empty update type: it is
    "Unknown" or the UpdateType of a scanned entry whose upper-cased KB is
    the item's identifier. *)
Theorem build_missing_list_items (scan_result : ScanResult) :
  kb_id <$> build_missing_list scan_result
  = List.filter truthy ((fun kb => upper (strip kb)) <$> MissingKbs scan_result)
  /\ forall item, item ∈ build_missing_list scan_result ->
       truthy (kb_id item) = true /\ truthy (update_type item) = true
       /\ (update_type item = "Unknown"
           \/ exists entry, entry ∈ KbEntries scan_result /\ truthy (KB entry) = true
                            /\ upper (KB entry) = kb_id item
                            /\ UpdateType entry = update_type item).
Proof. apply build_missing_list_spec. Qed.




Lemma extract_download_urls_loop (urls : list string) :
  forall (out : list string) (seen : gset string),
    NoDup out -> (forall x, x ∈ seen <-> x ∈ out) ->
    let r := foldl (fun (acc : list string * gset string) u =>
                      let u := strip u in
                      if truthy u && negb (bool_decide (u ∈ acc.2))
                      then ((acc.1 ++ [u])%list, acc.2 ∪ {[u]})
                      else acc) (out, seen) urls in
    NoDup r.1 /\ out `prefix_of` r.1
    /\ forall x, x ∈ r.1 <-> x ∈ out \/ (truthy x = true /\ exists u, u ∈ urls /\ strip u = x).
Proof.
  induction urls as [|u urls IH]; intros out seen Hnd Hseen; cbn zeta; cbn [foldl].
  - split; [assumption|]. split; [reflexivity|]. intros x. split; [auto|].
    intros [?|(_ & u & []%elem_of_nil & _)]; assumption.
  - cbn [fst snd]. destruct (truthy (strip u)) eqn:Ht; cbn [andb].
    + destruct (bool_decide_reflect (strip u ∈ seen)) as [Hin|Hout]; cbn [negb].
      * destruct (IH out seen Hnd Hseen) as (N & P & M). cbn zeta in *.
        split; [exact N|]. split; [exact P|]. intros x. rewrite M. split.
        -- intros [?|(? & u' & ? & ?)]; [auto|]. right. split; [assumption|].
           exists u'. split; [now right|assumption].
        -- intros [?|(? & u' & [->|?]%elem_of_cons & <-)]; [auto| |].
           ++ left. now apply Hseen.
           ++ right. split; [assumption|]. eauto.
      * destruct (IH (out ++ [strip u])%list (seen ∪ {[strip u]})) as (N & P & M).
        { apply NoDup_app. repeat split; [assumption| |apply NoDup_singleton].
          intros x Hx ->%list_elem_of_singleton. apply Hout, Hseen, Hx. }
        { intros x. rewrite elem_of_union, elem_of_app, Hseen, elem_of_singleton,
            list_elem_of_singleton. reflexivity. }
        cbn zeta in *. split; [exact N|].
        split; [etransitivity; [apply prefix_app_r; reflexivity|exact P]|].
        intros x. rewrite M, elem_of_app, list_elem_of_singleton. split.
        -- intros [[?| ->]|(? & u' & ? & ?)]; [auto| |].
           ++ right. split; [assumption|]. exists u. split; [left|reflexivity].
           ++ right. split; [assumption|]. exists u'. split; [now right|assumption].
        -- intros [?|(? & u' & [->|?]%elem_of_cons & <-)]; [auto|auto|].
           right. split; [assumption|]. eauto.
    + destruct (IH out seen Hnd Hseen) as (N & P & M). cbn zeta in *.
      split; [exact N|]. split; [exact P|]. intros x. rewrite M. split.
      * intros [?|(? & u' & ? & ?)]; [auto|]. right. split; [assumption|].
        exists u'. split; [now right|assumption].
      * intros [?|(? & u' & [->|?]%elem_of_cons & <-)]; [auto|congruence|].
        right. split; [assumption|]. eauto.
Qed.

(** X19. The URL list of [extract_download_urls] holds no URL twice and no
    blank one: it consists of exactly the non-empty stripped matches, and
    it is empty exactly when every match is blank. *)
Theorem extract_download_urls_unique (href_matches script_matches : list string) :
  let urls := extract_download_urls href_matches script_matches in
  NoDup urls
  /\ (forall x, x ∈ urls
                <-> truthy x = true
                    /\ exists u, u ∈ (href_matches ++ script_matches)%list /\ strip u = x)
  /\ (urls = [] <-> forall u, u ∈ (href_matches ++ script_matches)%list -> strip u = "").
Proof.
  intros urls. unfold urls, extract_download_urls.
  destruct (extract_download_urls_loop (href_matches ++ script_matches) [] ∅)
    as (N & _ & M); [constructor|set_solver|].
  cbn zeta in *.
  set (r := foldl _ _ _) in *.
  assert (M' : forall x, x ∈ r.1
                 <-> truthy x = true
                     /\ exists u, u ∈ (href_matches ++ script_matches)%list /\ strip u = x).
  { intros x. rewrite M. split; [intros [[]%elem_of_nil|?]; assumption|auto]. }
  split; [exact N|]. split; [exact M'|]. split.
  - intros E u Hu. destruct (strip u) as [|a s] eqn:Es; [reflexivity|].
    exfalso. apply (not_elem_of_nil (String a s)). rewrite <- E. apply M'.
    split; [reflexivity|eauto].
  - intros Hblank. destruct (r.1) as [|x l] eqn:E; [reflexivity|].
    exfalso. assert (Hx : x ∈ x :: l) by left.
    apply M' in Hx as (Ht & u & Hu & <-). rewrite (Hblank u Hu) in Ht. discriminate.
Qed.

End DownloaderMainFacts.

Section FileNames.
Import PyStr DownloaderMain Installer.

Lemma str_in_char_cons (c a : ascii) (s : string) :
  str_in (String c EmptyString) (String a s)
  = Ascii.eqb a c || str_in (String c EmptyString) s.
Proof.
  cbn [str_in String.prefix].
  destruct (ascii_dec c a) as [->|Hne].
  - rewrite Ascii.eqb_refl. now destruct s.
  - replace (Ascii.eqb a c) with false; [reflexivity|].
    symmetry. apply Ascii.eqb_neq. congruence.
Qed.

Lemma after_last_spec (c : ascii) (s : string) :
  str_in (String c EmptyString) (after_last c s) = false
  /\ exists pre, s = pre ++ after_last c s.
Proof.
  induction s as [|a s [IH1 [pre IH2]]]; cbn [after_last].
  - split; [reflexivity|]. now exists "".
  - destruct (str_in (String c EmptyString) s) eqn:Hin.
    + split; [assumption|]. exists (String a pre).
      change (String a s = String a (pre ++ after_last c s)). congruence.
    + destruct (Ascii.eqb a c) eqn:Ea.
      * split; [assumption|]. now exists (String a "").
      * split; [now rewrite str_in_char_cons, Ea, Hin|]. now exists "".
Qed.

Lemma before_first_spec (c : ascii) (s : string) :
  str_in (String c EmptyString) (before_first c s) = false
  /\ (forall d, str_in (String d EmptyString) s = false ->
                str_in (String d EmptyString) (before_first c s) = false)
  /\ exists post, s = before_first c s ++ post.
Proof.
  induction s as [|a s (IH1 & IH2 & post & IH3)]; cbn [before_first].
  - split; [reflexivity|]. split; [auto|]. now exists "".
  - destruct (Ascii.eqb a c) eqn:Ea.
    + split; [reflexivity|]. split; [reflexivity|]. now exists (String a s).
    + split; [now rewrite str_in_char_cons, Ea, IH1|]. split.
      * intros d. rewrite !str_in_char_cons. intros [-> Hs]%orb_false_iff.
        now rewrite IH2.
      * exists post.
        change (String a s = String a (before_first c s ++ post)). congruence.
Qed.

(** X20. The file name that [download_file] takes from a URL is a piece of
    the URL that contains neither a slash nor a question mark. *)
Theorem download_filename_clean (url : string) :
  str_in "/" (download_filename url) = false
  /\ str_in "?" (download_filename url) = false
  /\ exists pre post, url = pre ++ download_filename url ++ post.
Proof.
  unfold download_filename.
  destruct (after_last_spec "/" url) as [Hslash [pre Hpre]].
  destruct (before_first_spec "?" (after_last "/" url)) as (Hq & Hkeep & post & Hpost).
  split; [now apply Hkeep|]. split; [exact Hq|].
  exists pre, post. now rewrite <- Hpost.
Qed.







End FileNames.

Section ScanToDownload.
Import PyStr DownloaderMain.

Lemma upper_index_found (kb_entries : list KbEntry) (k : string) :
  (exists e, e ∈ kb_entries /\ truthy (KB e) = true /\ upper (KB e) = k) ->
  is_Some (upper_index kb_entries !! k).
Proof.
  unfold upper_index.
  assert (G : forall m : gmap string KbEntry,
    is_Some (m !! k)
    \/ (exists e, e ∈ kb_entries /\ truthy (KB e) = true /\ upper (KB e) = k) ->
    is_Some (foldl (fun m entry =>
                      if truthy (KB entry) then <[upper (KB entry) := entry]> m else m)
                   m kb_entries !! k)).
  { induction kb_entries as [|e l IH]; intros m; cbn [foldl].
    - intros [?|(e & []%elem_of_nil & _)]. assumption.
    - intros H. apply IH.
      destruct H as [H|(e' & [->|He']%elem_of_cons & Ht & Hk)].
      + left. destruct (truthy (KB e)); [|assumption].
        rewrite lookup_insert_is_Some. destruct (decide (upper (KB e) = k)); auto.
      + left. rewrite Ht, Hk. rewrite lookup_insert_eq. eauto.
      + right. eauto. }
  intros H. apply G. now right.
Qed.

Lemma truthy_upper (s : string) : truthy (upper s) = truthy s.
Proof. now destruct s. Qed.

(** X22. From scan to download.  When the identifiers of the bulletin
    records carry no surrounding white space, the downloader's missing
    list for the scanner's result has one item per missing identifier, in
    order and upper-cased, and each item is labelled "Superseding" or
    "Standalone", never "Unknown". *)
Theorem scan_to_missing_list (fuel : nat) (kb_entries persisted : list KbEntry)
    (installed_kbs : gset string) (s : ScanSummary) :
  resolve_compliance fuel kb_entries installed_kbs = Some s ->
  persisted ≡ₚ normalise_entry <$> kb_entries ->
  (forall e, e ∈ kb_entries -> strip (KB e) = KB e) ->
  let items := build_missing_list {| MissingKbs := missing_sorted s;
                                     KbEntries := persisted |} in
  kb_id <$> items = upper <$> missing_sorted s
  /\ forall item, item ∈ items ->
       update_type item = "Superseding" \/ update_type item = "Standalone".
Proof.
  intros Hs Hperm Hclean items.
  destruct (resolve_compliance_spec _ _ _ _ Hs) as (He & _ & _ & _ & Hm & _).
  assert (Hmissing : forall kb, kb ∈ missing_sorted s ->
            truthy kb = true /\ strip kb = kb /\ exists e, e ∈ kb_entries /\ KB e = kb).
  { intros kb [(Ht & e & Hin & <-)%He _]%Hm. split; [assumption|].
    split; [now apply Hclean|eauto]. }
  destruct (build_missing_list_spec {| MissingKbs := missing_sorted s;
                                        KbEntries := persisted |}) as [Hids Hitems].
  fold items in Hids, Hitems. cbn [MissingKbs KbEntries] in Hids, Hitems.
  assert (Hkeep : List.filter truthy ((fun kb => upper (strip kb)) <$> missing_sorted s)
                  = upper <$> missing_sorted s).
  { revert Hmissing. generalize (missing_sorted s). intros l Hl.
    induction l as [|kb l IH]; [reflexivity|]. cbn.
    destruct (Hl kb ltac:(left)) as (Ht & -> & _).
    rewrite truthy_upper, Ht. f_equal. apply IH. intros kb' Hkb'. apply Hl. now right. }
  split; [now rewrite Hids|].
  intros item Hitem.
  assert (Hid : kb_id item ∈ upper <$> missing_sorted s).
  { rewrite <- Hkeep, <- Hids. apply list_elem_of_fmap. eauto. }
  apply list_elem_of_fmap in Hid as (kb & Hid & Hkb).
  destruct (Hmissing kb Hkb) as (Ht & _ & e & Hin & HKB).
  assert (Hfound : is_Some (upper_index persisted !! kb_id item)).
  { apply upper_index_found. exists (normalise_entry e). split; [|split].
    - rewrite Hperm. apply list_elem_of_fmap. eauto.
    - cbn. now rewrite HKB.
    - cbn. now rewrite HKB. }
  destruct Hfound as [entry Hentry].
  pose proof (upper_index_lookup _ _ _ Hentry) as (Hin' & _ & _).
  rewrite Hperm in Hin'. apply list_elem_of_fmap in Hin' as (e0 & -> & _).
  revert Hitem. unfold items, build_missing_list. rewrite build_missing_list_loop.
  cbn [app MissingKbs KbEntries]. intros (k & -> & _)%list_elem_of_fmap.
  cbn [kb_id update_type] in *. rewrite Hentry. cbn [UpdateType normalise_entry].
  destruct (sorted_set (Supersedes e0)); cbn; auto.
Qed.

Lemma scan_to_missing_list_witness :
  exists s, resolve_compliance 5 Scenarios.chain {["KB5029351"]} = Some s
            /\ kb_id <$> build_missing_list
                           {| MissingKbs := missing_sorted s;
                              KbEntries := normalise_entry <$> Scenarios.chain |}
               = upper <$> missing_sorted s.
Proof.
  destruct (resolve_compliance 5 Scenarios.chain {["KB5029351"]}) as [s|] eqn:E;
    [|vm_compute in E; discriminate].
  exists s. split; [reflexivity|].
  apply (scan_to_missing_list 5 Scenarios.chain (normalise_entry <$> Scenarios.chain)
           {["KB5029351"]} s E); [reflexivity|].
  intros e He. apply list_elem_of_In in He.
  destruct He as [<-|[<-|[]]]; reflexivity.
Defined.

End ScanToDownload.
